(** * avplay: the canvas renderer and the player core

    A shallow embedding of two classes of the repository,

    - [Canvas2DRenderer]
      (packages/mediafox/src/playback/renderers/canvas2d.ts), and
    - [PlayerCore], the orchestrator of load / play / pause / seek / stop,

    together with the properties the specification states about them.

    Conventions.  The pixel sizes of a canvas are modelled as [N].  A
    JavaScript number is an IEEE 754 double: a double is represented by
    the rational it denotes ([Q]), and the division and the product of the
    letterbox arithmetic are rounded to the nearest double, a tie going to
    the even significand ([double]); [Math.round x] is
    [floor (x + 1/2)].  An [await] is modelled as a
    plain sequential call: a method runs to completion before the next one
    starts.  A [try { } catch { }] keeps every effect made before the
    throw, so the monad of [Module Player] threads the world through
    failures as well. *)

From Stdlib Require Import List String Ascii Bool ZArith NArith.
From Stdlib Require Import QArith Qround Qminmax Qpower Qabs Qfield Lia Lqa.
From Stdlib Require PrimFloat FloatOps SpecFloat Uint63.
Import ListNotations.

Set Implicit Arguments.

(* ===================================================================== *)
(** * Canvas2DRenderer *)
(* ===================================================================== *)

Module Canvas2D.

Local Open Scope Z_scope.

(** The calls the renderer issues on its 2D context. *)
Inductive DrawOp : Type :=
| FillRect (style : string) (x y w h : Z)
| DrawImage (sourceWidth sourceHeight : N) (sx sy sw sh dx dy dw dh : Z).

(** [CanvasRenderingContext2D | OffscreenCanvasRenderingContext2D]: the
    attributes the renderer writes, what has been painted so far (oldest
    first), and which calls the host makes throw (a detached source, a
    lost context, ...). *)
Record Context2D : Type := {
  imageSmoothingEnabled : bool;
  imageSmoothingQuality : string;
  fillStyle : string;
  painted : list DrawOp;
  throws : DrawOp -> bool
}.

(** What [canvas.getContext('2d', ...)] does on a given canvas. *)
Inductive GetContext : Type :=
| ContextThrows
| ContextNull
| ContextOk (c : Context2D).

(** [HTMLCanvasElement | OffscreenCanvas]. *)
Record Canvas : Type := {
  width : N;
  height : N;
  getContext : GetContext
}.

Record Canvas2DRendererOptions : Type := { options_canvas : Canvas }.

(** Fields of [class Canvas2DRenderer]. *)
Record Canvas2DRenderer : Type := {
  canvas : Canvas;
  ctx : option Context2D;
  isInitialized : bool
}.

Definition set_smoothing (c : Context2D) : Context2D :=
  {| imageSmoothingEnabled := true;
     imageSmoothingQuality := "high";
     fillStyle := fillStyle c;
     painted := painted c;
     throws := throws c |}.

Definition set_fillStyle (style : string) (c : Context2D) : Context2D :=
  {| imageSmoothingEnabled := imageSmoothingEnabled c;
     imageSmoothingQuality := imageSmoothingQuality c;
     fillStyle := style;
     painted := painted c;
     throws := throws c |}.

(** A context call: [None] when the host throws, else the context with the
    call appended to what it painted. *)
Definition issue (op : DrawOp) (c : Context2D) : option Context2D :=
  if throws c op then None
  else Some {| imageSmoothingEnabled := imageSmoothingEnabled c;
               imageSmoothingQuality := imageSmoothingQuality c;
               fillStyle := fillStyle c;
               painted := painted c ++ [op];
               throws := throws c |}.

Definition fillRect (x y w h : Z) (c : Context2D) : option Context2D :=
  issue (FillRect (fillStyle c) x y w h) c.

Definition drawImage (source : Canvas) (sx sy sw sh dx dy dw dh : Z)
    (c : Context2D) : option Context2D :=
  issue (DrawImage (width source) (height source) sx sy sw sh dx dy dw dh) c.

Definition with_ctx (r : Canvas2DRenderer) (c : option Context2D) (i : bool)
    : Canvas2DRenderer :=
  {| canvas := canvas r; ctx := c; isInitialized := i |}.

(** [private initialize(): boolean]. *)
Definition initialize (r : Canvas2DRenderer) : Canvas2DRenderer * bool :=
  match getContext (canvas r) with
  | ContextThrows => (r, false)
  | ContextNull => (with_ctx r None (isInitialized r), false)
  | ContextOk c => (with_ctx r (Some (set_smoothing c)) true, true)
  end.

(** [constructor(options)]. *)
Definition constructor (options : Canvas2DRendererOptions) : Canvas2DRenderer :=
  fst (initialize {| canvas := options_canvas options;
                     ctx := None;
                     isInitialized := false |}).

(** [public isReady(): boolean]. *)
Definition isReady (r : Canvas2DRenderer) : bool :=
  isInitialized r && match ctx r with Some _ => true | None => false end.

(** ** JavaScript numbers

    A [number] is an IEEE 754 binary64 value, represented here by the
    rational it denotes.  The sizes [render] reads are integers that a
    double holds exactly, and so are the differences and the halves of
    lines 68-69; what rounds is the division of line 65 and the products
    of lines 66-67.  For [2^e <= x < 2^(e+1)] the doubles around [x] are
    the multiples of [2^(e-52)], and an operation returns the one nearest
    to its exact result, a tie going to the even multiple.  Results
    beyond the normal range (below [2^-1022], or [2^1024] and above) do
    not arise from canvas sizes and are not modelled. *)

(** The [e] with [2^e <= x < 2^(e+1)], for [0 < x]. *)
Definition ilog2 (x : Q) : Z :=
  let k := Z.log2 (Qnum x) - Z.log2 (Z.pos (Qden x)) in
  if Qle_bool (2 ^ k) x then k else k - 1.

(** The nearest integer, a tie going to the even one. *)
Definition roundTiesToEven (y : Q) : Z :=
  let f := Qfloor y in
  match Qcompare (y - inject_Z f) (1 # 2) with
  | Lt => f
  | Gt => f + 1
  | Eq => if Z.even f then f else f + 1
  end.

Definition nearest (x : Q) : Q :=
  let ulp := (2 ^ (ilog2 x - 52))%Q in
  Qred (inject_Z (roundTiesToEven (x / ulp)) * ulp).

(** The double that an operation with the exact result [x] returns. *)
Definition double (x : Q) : Q :=
  match Qcompare x 0 with
  | Eq => 0%Q
  | Gt => nearest x
  | Lt => (- nearest (- x))%Q
  end.

(** The unit roundoff of a double, [2^-53]. *)
Definition eps : Q := 1 # 9007199254740992.

(** [Math.round]: the nearest integer, a tie going up. *)
Definition round (x : Q) : Z := Qfloor (x + (1 # 2)).

Definition num (n : N) : Q := inject_Z (Z.of_N n).

(** The letterbox rectangle of [render], with the names of its locals.
    [Math.min] of two doubles is one of them; [canvasWidth - destW] and its
    half are exact. *)
Definition scale (sourceWidth sourceHeight canvasWidth canvasHeight : N) : Q :=
  Qmin (double (num canvasWidth / num sourceWidth))
       (double (num canvasHeight / num sourceHeight)).

Definition destW (sourceWidth sourceHeight canvasWidth canvasHeight : N) : Z :=
  round (double (num sourceWidth
                 * scale sourceWidth sourceHeight canvasWidth canvasHeight)).

Definition destH (sourceWidth sourceHeight canvasWidth canvasHeight : N) : Z :=
  round (double (num sourceHeight
                 * scale sourceWidth sourceHeight canvasWidth canvasHeight)).

Definition dx (sourceWidth sourceHeight canvasWidth canvasHeight : N) : Z :=
  round ((inject_Z (Z.of_N canvasWidth
                    - destW sourceWidth sourceHeight canvasWidth canvasHeight)) / 2).

Definition dy (sourceWidth sourceHeight canvasWidth canvasHeight : N) : Z :=
  round ((inject_Z (Z.of_N canvasHeight
                    - destH sourceWidth sourceHeight canvasWidth canvasHeight)) / 2).

(** The ratio the letterbox aims at, before any rounding. *)
Definition idealScale (sourceWidth sourceHeight canvasWidth canvasHeight : N) : Q :=
  Qmin (num canvasWidth / num sourceWidth) (num canvasHeight / num sourceHeight).

(** The sizes an [HTMLCanvasElement] can have: its [width] and [height] are
    [unsigned long] attributes. *)
Definition unsignedLong (n : N) : Prop := (n < 2 ^ 32)%N.

(** [public render(source): boolean].  The result is the renderer after the
    call and the returned boolean; an exception of the context ends in the
    [catch] and yields [false], the context keeping what it had painted
    before the throw. *)
Definition render (r : Canvas2DRenderer) (source : Canvas)
    : Canvas2DRenderer * bool :=
  match ctx r with
  | None => (r, false)
  | Some c =>
    if negb (isReady r) then (r, false) else
    let sourceWidth := width source in
    let sourceHeight := height source in
    if (sourceWidth =? 0)%N || (sourceHeight =? 0)%N then (r, false) else
    let canvasWidth := width (canvas r) in
    let canvasHeight := height (canvas r) in
    if (canvasWidth =? 0)%N || (canvasHeight =? 0)%N then (r, false) else
    let dW := destW sourceWidth sourceHeight canvasWidth canvasHeight in
    let dH := destH sourceWidth sourceHeight canvasWidth canvasHeight in
    let x := dx sourceWidth sourceHeight canvasWidth canvasHeight in
    let y := dy sourceWidth sourceHeight canvasWidth canvasHeight in
    let c1 := set_fillStyle "black" c in
    match fillRect 0 0 (Z.of_N canvasWidth) (Z.of_N canvasHeight) c1 with
    | None => (with_ctx r (Some c1) (isInitialized r), false)
    | Some c2 =>
      match drawImage source 0 0 (Z.of_N sourceWidth) (Z.of_N sourceHeight)
                      x y dW dH c2 with
      | None => (with_ctx r (Some c2) (isInitialized r), false)
      | Some c3 => (with_ctx r (Some c3) (isInitialized r), true)
      end
    end
  end.

(** [public clear(): void].  There is no [try] here: the boolean tells
    whether the call returned ([true]) or the context's exception escaped. *)
Definition clear (r : Canvas2DRenderer) : Canvas2DRenderer * bool :=
  match ctx r with
  | None => (r, true)
  | Some c =>
    if negb (isReady r) then (r, true) else
    let c1 := set_fillStyle "black" c in
    match fillRect 0 0 (Z.of_N (width (canvas r))) (Z.of_N (height (canvas r))) c1 with
    | None => (with_ctx r (Some c1) (isInitialized r), false)
    | Some c2 => (with_ctx r (Some c2) (isInitialized r), true)
    end
  end.

(** [public dispose(): void]. *)
Definition dispose (r : Canvas2DRenderer) : Canvas2DRenderer :=
  with_ctx r None false.

(** The two calls of a frame that was drawn. *)
Definition frameOps (r : Canvas2DRenderer) (source : Canvas) : list DrawOp :=
  let sw := width source in
  let sh := height source in
  let cw := width (canvas r) in
  let ch := height (canvas r) in
  [FillRect "black" 0 0 (Z.of_N cw) (Z.of_N ch);
   DrawImage sw sh 0 0 (Z.of_N sw) (Z.of_N sh)
             (dx sw sh cw ch) (dy sw sh cw ch)
             (destW sw sh cw ch) (destH sw sh cw ch)].

(** What the renderer's context has painted; nothing without a context. *)
Definition paintedBy (r : Canvas2DRenderer) : list DrawOp :=
  match ctx r with Some c => painted c | None => [] end.

(** A 1920x1080 target with a working context, a 640x480 frame to draw on
    it, and a target whose context cannot be had. *)
Definition freshContext : Context2D :=
  {| imageSmoothingEnabled := false;
     imageSmoothingQuality := "low";
     fillStyle := "#000000";
     painted := [];
     throws := fun _ => false |}.

Definition screen : Canvas :=
  {| width := 1920; height := 1080; getContext := ContextOk freshContext |}.

Definition frame : Canvas :=
  {| width := 640; height := 480; getContext := ContextNull |}.

Definition headless : Canvas :=
  {| width := 1920; height := 1080; getContext := ContextNull |}.

(** A frame one pixel wide and 5000 high. *)
Definition sliver : Canvas :=
  {| width := 1; height := 5000; getContext := ContextNull |}.

(** A 13x59 target and a 6x27 frame: the scale 13/6 is no double, and the
    product 27 * (13/6), 58.5 exactly, comes out just below. *)
Definition strip : Canvas :=
  {| width := 13; height := 59; getContext := ContextOk freshContext |}.

Definition tile : Canvas :=
  {| width := 6; height := 27; getContext := ContextNull |}.

Definition onStrip : Canvas2DRenderer :=
  constructor {| options_canvas := strip |}.

(** Whether a call covers any pixel: a rectangle of no width or no height
    covers none. *)
Definition coversPixels (op : DrawOp) : bool :=
  match op with
  | FillRect _ _ _ w h => (0 <? w) && (0 <? h)
  | DrawImage _ _ _ _ _ _ _ _ dw dh => (0 <? dw) && (0 <? dh)
  end.

(** Whether a call drew from the source onto some pixel. *)
Definition drawsFrame (op : DrawOp) : bool :=
  match op with
  | FillRect _ _ _ _ _ => false
  | DrawImage _ _ _ _ _ _ _ _ _ _ => coversPixels op
  end.

Definition onScreen : Canvas2DRenderer :=
  constructor {| options_canvas := screen |}.

(** The public methods, as calls a user of a renderer makes one after the
    other. *)
Inductive Method : Type :=
| CallRender (source : Canvas)
| CallClear
| CallDispose.

Definition perform (r : Canvas2DRenderer) (m : Method) : Canvas2DRenderer :=
  match m with
  | CallRender source => fst (render r source)
  | CallClear => fst (clear r)
  | CallDispose => dispose r
  end.

Definition performAll (r : Canvas2DRenderer) (ms : list Method)
    : Canvas2DRenderer :=
  fold_left perform ms r.

(** What a renderer keeps over its life: the canvas it was made for, the
    flag and the context going together, and on the context the smoothing
    that [initialize] sets. *)
Definition consistent (target : Canvas) (r : Canvas2DRenderer) : Prop :=
  canvas r = target /\
  isReady r = isInitialized r /\
  (isInitialized r = true <-> ctx r <> None) /\
  (forall c, ctx r = Some c ->
     imageSmoothingEnabled c = true /\ imageSmoothingQuality c = "high"%string).

End Canvas2D.

(* ===================================================================== *)
(** * The machine's doubles *)
(* ===================================================================== *)

(** The letterbox of [render] once more, computed with the binary64
    arithmetic of the machine: a reference against which [Canvas2D.double]
    is checked. *)
Module Binary64.

Import PrimFloat.

(** The rational a finite double denotes. *)
Definition toQ (f : float) : option Q :=
  match FloatOps.Prim2SF f with
  | SpecFloat.S754_zero _ => Some 0%Q
  | SpecFloat.S754_finite s m e =>
    Some (Qred ((if s then -1 else 1) * inject_Z (Z.pos m) * 2 ^ e)%Q)
  | _ => None
  end.

Definition ofN (n : N) : float := of_uint63 (Uint63.of_Z (Z.of_N n)).

(** [Math.min] on two finite doubles. *)
Definition min (a b : float) : float := if ltb b a then b else a.

Definition scale (sourceWidth sourceHeight canvasWidth canvasHeight : N) : float :=
  min (div (ofN canvasWidth) (ofN sourceWidth))
      (div (ofN canvasHeight) (ofN sourceHeight)).

Definition destW (sourceWidth sourceHeight canvasWidth canvasHeight : N) : option Z :=
  option_map Canvas2D.round
    (toQ (mul (ofN sourceWidth)
              (scale sourceWidth sourceHeight canvasWidth canvasHeight))).

Definition destH (sourceWidth sourceHeight canvasWidth canvasHeight : N) : option Z :=
  option_map Canvas2D.round
    (toQ (mul (ofN sourceHeight)
              (scale sourceWidth sourceHeight canvasWidth canvasHeight))).

(** Whether the model and the machine give the same scale, width and
    height. *)
Definition agrees (sw sh cw ch : N) : bool :=
  match toQ (scale sw sh cw ch), destW sw sh cw ch, destH sw sh cw ch with
  | Some s, Some w, Some h =>
    Qeq_bool s (Canvas2D.scale sw sh cw ch)
    && (w =? Canvas2D.destW sw sh cw ch)%Z
    && (h =? Canvas2D.destH sw sh cw ch)%Z
  | _, _, _ => false
  end.

(** Sizes to try: small ones, usual video sizes, and the end of the
    range. *)
Definition sizes : list N :=
  [1; 3; 7; 27; 98; 720; 1080; 1920; 4294967295]%N.

Definition agreesOnAll : bool :=
  forallb (fun sw => forallb (fun sh => forallb (fun cw =>
    forallb (fun ch => agrees sw sh cw ch) sizes) sizes) sizes) sizes.

End Binary64.

(* ===================================================================== *)
(** * PlayerCore *)
(* ===================================================================== *)

Module Player.

(** ** Data model *)

(** A JavaScript [Error], identified by its message. *)
Record Error : Type := { message : string }.

(** The completion of a call: a value, or a thrown error (for an [async]
    method: the promise resolves or rejects). *)
Inductive Result (A : Type) : Type :=
| Ok (a : A)
| Throw (e : Error).
Arguments Ok {A} a.
Arguments Throw {A} e.

Record Track : Type := { id : string; codec : string; language : string }.

(** The video, audio and subtitle track sequences. *)
Definition Tracks : Type := (list Track * list Track * list Track)%type.

Definition noTracks : Tracks := ([], [], []).

Record MediaInfo : Type := {
  mediaDuration : Q;
  format : string;
  mimeType : string;
  metadata : list (string * string);
  hasVideo : bool;
  hasAudio : bool;
  hasSubtitles : bool
}.

(** Modelled from the spec: the type of the player state is declared in
    types.ts, which is not among the sources; section 3 lists the lifecycle
    tags [idle], [loading], [ready], [seeking], [error] and the fields of
    [PlayerState]. *)
Inductive Lifecycle : Type :=
| state_idle | state_loading | state_ready | state_seeking | state_error.

(** Modelled from the spec: [PlayerState], with the fields of section 3. *)
Record PlayerState : Type := {
  state : Lifecycle;
  duration : option Q;
  currentTime : Q;
  isPlaying : bool;
  mediaInfo : option MediaInfo;
  tracks : Tracks;
  error : option Error
}.

(** [LoadOptions]: both members are optional. *)
Record LoadOptions : Type := {
  autoplay : option bool;
  startTime : option Q
}.

Definition noOptions : LoadOptions := {| autoplay := None; startTime := None |}.

(** [TrackSwitchResult]. *)
Record TrackSwitchResult : Type := {
  warningMessage : string;
  videoSupported : bool;
  audioSupported : bool
}.

(** The events [PlayerCore] emits, with their payloads. *)
Inductive PlayerEvent : Type :=
| ev_loadstart
| ev_loadedmetadata (info : MediaInfo)
| ev_loadeddata
| ev_canplay
| ev_canplaythrough
| ev_play
| ev_playing
| ev_pause
| ev_seeking (time : Q)
| ev_seeked (time : Q)
| ev_error (e : Error)
| ev_warning (type : string) (text : string).

(** What an observer of the player sees, in the order it happens: a
    subscriber notified with a snapshot, an event handed to [emit], a line
    of [logger.error]. *)
Inductive Action : Type :=
| Notify (snapshot : PlayerState)
| Emit (ev : PlayerEvent)
| LogError (label : string) (e : Error).

(** ** StateFacade *)

Module StateFacade.

(** Modelled from the spec: [StateFacade] (state-facade.ts) is not among the
    sources.  Section 3 gives the fields of [PlayerState] and section 4.1
    the contract: [reset] restores the idle defaults and clears [error];
    every [update*] setter is total, changes one facet of the state and
    notifies the subscribers with the new snapshot.  The seeking flag of
    section 4.4 is the lifecycle tag [seeking] ("ready <-> seeking"):
    setting it enters [seeking], clearing it leaves [seeking] for [ready]
    and changes nothing when the flag was not set.  [updateError] is the
    transition "* -> error". *)
Definition initialState : PlayerState :=
  {| state := state_idle; duration := None; currentTime := 0;
     isPlaying := false; mediaInfo := None; tracks := noTracks;
     error := None |}.

(** Modelled from the spec: [StateFacade.reset] "restores all fields to
    their idle defaults and clears [error]". *)
Definition reset (s : PlayerState) : PlayerState := initialState.

(** Modelled from the spec: [StateFacade.updateLoadingState], "set
    [loading]". *)
Definition updateLoadingState (s : PlayerState) : PlayerState :=
  {| state := state_loading; duration := duration s;
     currentTime := currentTime s; isPlaying := isPlaying s;
     mediaInfo := mediaInfo s; tracks := tracks s; error := error s |}.

(** Modelled from the spec: [StateFacade.updateDuration], the duration
    facet. *)
Definition updateDuration (d : Q) (s : PlayerState) : PlayerState :=
  {| state := state s; duration := Some d;
     currentTime := currentTime s; isPlaying := isPlaying s;
     mediaInfo := mediaInfo s; tracks := tracks s; error := error s |}.

(** Modelled from the spec: [StateFacade.updateMediaInfo]; the media info
    is "replaced wholesale". *)
Definition updateMediaInfo (mi : MediaInfo) (s : PlayerState) : PlayerState :=
  {| state := state s; duration := duration s;
     currentTime := currentTime s; isPlaying := isPlaying s;
     mediaInfo := Some mi; tracks := tracks s; error := error s |}.

(** Modelled from the spec: [StateFacade.updateTracks], the three track
    sequences. *)
Definition updateTracks (video audio subtitle : list Track) (s : PlayerState)
    : PlayerState :=
  {| state := state s; duration := duration s;
     currentTime := currentTime s; isPlaying := isPlaying s;
     mediaInfo := mediaInfo s; tracks := (video, audio, subtitle);
     error := error s |}.

(** Modelled from the spec: [StateFacade.updateReadyState], "mark ready";
    the state of section 3 has no field for the two arguments. *)
Definition updateReadyState (canPlay canPlayThrough : bool) (s : PlayerState)
    : PlayerState :=
  {| state := state_ready; duration := duration s;
     currentTime := currentTime s; isPlaying := isPlaying s;
     mediaInfo := mediaInfo s; tracks := tracks s; error := error s |}.

(** Modelled from the spec: [StateFacade.updatePlaybackState], "sets
    [isPlaying]". *)
Definition updatePlaybackState (playing : bool) (s : PlayerState) : PlayerState :=
  {| state := state s; duration := duration s;
     currentTime := currentTime s; isPlaying := playing;
     mediaInfo := mediaInfo s; tracks := tracks s; error := error s |}.

(** Modelled from the spec: [StateFacade.updateSeekingState], "sets
    seeking flag true" / "sets seeking flag false" over "ready <-> seeking". *)
Definition updateSeekingState (flag : bool) (s : PlayerState) : PlayerState :=
  {| state := if flag then state_seeking
              else match state s with
                   | state_seeking => state_ready
                   | other => other
                   end;
     duration := duration s;
     currentTime := currentTime s; isPlaying := isPlaying s;
     mediaInfo := mediaInfo s; tracks := tracks s; error := error s |}.

(** Modelled from the spec: [StateFacade.updateTime], "updates
    [currentTime]". *)
Definition updateTime (t : Q) (s : PlayerState) : PlayerState :=
  {| state := state s; duration := duration s;
     currentTime := t; isPlaying := isPlaying s;
     mediaInfo := mediaInfo s; tracks := tracks s; error := error s |}.

(** Modelled from the spec: [StateFacade.updateError], "records the error
    into StateFacade" and takes "* -> error". *)
Definition updateError (e : Error) (s : PlayerState) : PlayerState :=
  {| state := state_error; duration := duration s;
     currentTime := currentTime s; isPlaying := isPlaying s;
     mediaInfo := mediaInfo s; tracks := tracks s; error := Some e |}.

(** The seeking flag read off a snapshot. *)
Definition seekingFlag (s : PlayerState) : bool :=
  match state s with state_seeking => true | _ => false end.

End StateFacade.

(** ** Collaborators *)

(** The format object of an input, of which [load] reads [name]. *)
Record InputFormat : Type := { name : string }.

(** [sourceInfo], of which [load] reads [input]. *)
Record SourceInfo (Input : Type) : Type := { input : option Input }.

(** [PlayerCoreDeps] without [state] and [emit], which are modelled above
    and below.  The source manager, the track manager, the playback
    controller, the track switcher and the input object are collaborators
    outside this core: [X] is the state of that pipeline, every call on it
    is a function of [X] and every command may throw.  The getters of the
    track manager only read.  [getCurrentTime] is a call like the others:
    the position it reports moves while the media plays, so two calls need
    not agree, and it may throw.  The last field is not a method: when
    several promises handed to [Promise.all] reject, the pipeline decides
    which of them settles first, and [settlesFirst] is its number among the
    rejected ones, counted in the order of the array. *)
Record PlayerCoreDeps (X MediaSource Input : Type) : Type := {
  sourceManager_createSource : MediaSource -> X -> X * Result (SourceInfo Input);
  trackManager_initialize : Input -> X -> X * Result unit;
  trackManager_hasVideo : X -> bool;
  trackManager_hasAudio : X -> bool;
  trackManager_hasSubtitles : X -> bool;
  trackManager_getVideoTracks : X -> list Track;
  trackManager_getAudioTracks : X -> list Track;
  trackManager_getSubtitleTracks : X -> list Track;
  trackManager_getPrimaryVideoTrack : X -> option Track;
  trackManager_getPrimaryAudioTrack : X -> option Track;
  input_computeDuration : Input -> X -> X * Result Q;
  input_getFormat : Input -> X -> X * Result InputFormat;
  input_getMimeType : Input -> X -> X * Result string;
  input_getMetadataTags : Input -> X -> X * Result (list (string * string));
  trackSwitcher_setupInitialTracks :
    option Track -> option Track -> X -> X * Result TrackSwitchResult;
  playbackController_setDuration : Q -> X -> X * Result unit;
  playbackController_play : X -> X * Result unit;
  playbackController_pause : X -> X * Result unit;
  playbackController_seek : Q -> X -> X * Result unit;
  playbackController_getCurrentTime : X -> X * Result Q;
  settlesFirst : X -> nat
}.

(** The rejection of a call, if it rejected. *)
Definition rejection (A : Type) (r : Result A) : list Error :=
  match r with
  | Ok _ => []
  | Throw e => [e]
  end.

(** [Promise.all] of four calls: all four are started, in the order of the
    array.  The result is the four values, in that order, when all four
    resolve; else it is the rejection that settled first, [first] being
    its number among the rejections, which are taken in the order of the
    array (the earliest of them when [first] is out of range). *)
Definition promiseAll4 (X A B C D : Type) (first : X -> nat)
    (a : X -> X * Result A) (b : X -> X * Result B)
    (c : X -> X * Result C) (d : X -> X * Result D)
    (x : X) : X * Result (A * B * C * D) :=
  let (x1, ra) := a x in
  let (x2, rb) := b x1 in
  let (x3, rc) := c x2 in
  let (x4, rd) := d x3 in
  (x4, match ra with
       | Throw e =>
         Throw (nth (first x4)
                    (e :: rejection rb ++ rejection rc ++ rejection rd) e)
       | Ok va =>
         match rb with
         | Throw e => Throw (nth (first x4) (e :: rejection rc ++ rejection rd) e)
         | Ok vb =>
           match rc with
           | Throw e => Throw (nth (first x4) (e :: rejection rd) e)
           | Ok vc =>
             match rd with
             | Throw e => Throw e
             | Ok vd => Ok (va, vb, vc, vd)
             end
           end
         end
       end).

(** ** Strings

    A string is held as the bytes of its UTF-8 encoding.  The white space
    that [String.prototype.trim] strips is ECMAScript's WhiteSpace and
    LineTerminator: U+0009 to U+000D, U+0020, U+00A0, U+1680, U+2000 to
    U+200A, U+2028, U+2029, U+202F, U+205F, U+3000 and U+FEFF, here by
    their encodings. *)
Definition whiteSpace : list (list N) :=
  [[9]; [10]; [11]; [12]; [13]; [32];
   [194; 160];
   [225; 154; 128];
   [226; 128; 128]; [226; 128; 129]; [226; 128; 130]; [226; 128; 131];
   [226; 128; 132]; [226; 128; 133]; [226; 128; 134]; [226; 128; 135];
   [226; 128; 136]; [226; 128; 137]; [226; 128; 138];
   [226; 128; 168]; [226; 128; 169];
   [226; 128; 175];
   [226; 129; 159];
   [227; 128; 128];
   [239; 187; 191]]%N.

(** The bytes after the prefix [p], when the bytes start with [p]. *)
Fixpoint afterPrefix (p : list N) (s : list ascii) : option (list ascii) :=
  match p, s with
  | [], _ => Some s
  | n :: p', c :: s' =>
    if (N_of_ascii c =? n)%N then afterPrefix p' s' else None
  | _ :: _, [] => None
  end.

(** The bytes after one leading character of [set], if there is one. *)
Fixpoint afterOne (set : list (list N)) (s : list ascii) : option (list ascii) :=
  match set with
  | [] => None
  | p :: set' =>
    match afterPrefix p s with
    | Some s' => Some s'
    | None => afterOne set' s
    end
  end.

(** Drops the leading characters of [set]; [fuel] bounds their number. *)
Fixpoint dropLeading (set : list (list N)) (fuel : nat) (s : list ascii)
    : list ascii :=
  match fuel with
  | O => s
  | S fuel' =>
    match afterOne set s with
    | Some s' => dropLeading set fuel' s'
    | None => s
    end
  end.

Definition trimStart (s : string) : string :=
  let bytes := list_ascii_of_string s in
  string_of_list_ascii (dropLeading whiteSpace (List.length bytes) bytes).

(** The same from the end: on the reversed bytes, with the encodings
    reversed. *)
Definition trimEnd (s : string) : string :=
  let bytes := rev (list_ascii_of_string s) in
  string_of_list_ascii
    (rev (dropLeading (map (@rev N) whiteSpace) (List.length bytes) bytes)).

(** [String.prototype.trim]. *)
Definition trim (s : string) : string := trimEnd (trimStart s).

(** The string with the given bytes. *)
Definition bytes (l : list N) : string :=
  string_of_list_ascii (map ascii_of_N l).

(** The truth value of a string: [false] exactly for the empty one. *)
Definition truthy (s : string) : bool :=
  match s with EmptyString => false | String _ _ => true end.

Definition isSome (A : Type) (o : option A) : bool :=
  match o with Some _ => true | None => false end.

(** ** The player monad *)

Section PlayerCore.

Variables X MediaSource Input : Type.
Variable deps : PlayerCoreDeps X MediaSource Input.

(** The facade's state and the state of the pipeline behind the other
    collaborators. *)
Record World : Type := { facade : PlayerState; pipeline : X }.

(** A finished call: the world it leaves, what it made observable, in
    order, and how it completed. *)
Record Run (A : Type) : Type := {
  final : World;
  emitted : list Action;
  outcome : Result A
}.

(** A method of the player: from a world to a finished call. *)
Definition M (A : Type) : Type := World -> Run A.

(** [return a]. *)
Definition ret (A : Type) (a : A) : M A :=
  fun w => {| final := w; emitted := []; outcome := Ok a |}.

(** [throw e]. *)
Definition throw (A : Type) (e : Error) : M A :=
  fun w => {| final := w; emitted := []; outcome := Throw e |}.
Arguments throw {A} e.

(** [m; f]: what [m] made observable stays, also when it throws. *)
Definition bind (A B : Type) (m : M A) (f : A -> M B) : M B :=
  fun w =>
    match m w with
    | {| final := w1; emitted := l1; outcome := Ok a |} =>
      match f a w1 with
      | {| final := w2; emitted := l2; outcome := o |} =>
        {| final := w2; emitted := l1 ++ l2; outcome := o |}
      end
    | {| final := w1; emitted := l1; outcome := Throw e |} =>
      {| final := w1; emitted := l1; outcome := Throw e |}
    end.

(** [try { m } catch (error) { h error }]. *)
Definition try_catch (A : Type) (m : M A) (h : Error -> M A) : M A :=
  fun w =>
    match m w with
    | {| final := w1; emitted := l1; outcome := Ok a |} =>
      {| final := w1; emitted := l1; outcome := Ok a |}
    | {| final := w1; emitted := l1; outcome := Throw e |} =>
      match h e w1 with
      | {| final := w2; emitted := l2; outcome := o |} =>
        {| final := w2; emitted := l1 ++ l2; outcome := o |}
      end
    end.

Notation "x <- m ;; k" := (bind m (fun x => k))
  (at level 61, m at next level, right associativity).
Notation "m ;; k" := (bind m (fun _ => k))
  (at level 61, right associativity).

(** Modelled from the spec: a call of a [StateFacade] method is "a single
    atomic replace-and-notify step": the state is replaced and the
    subscribers get the new snapshot. *)
Definition update (f : PlayerState -> PlayerState) : M unit :=
  fun w =>
    let s := f (facade w) in
    {| final := {| facade := s; pipeline := pipeline w |};
       emitted := [Notify s];
       outcome := Ok tt |}.

(** Modelled from the spec: [StateFacade.getState], the current snapshot. *)
Definition getState : M PlayerState :=
  fun w => {| final := w; emitted := []; outcome := Ok (facade w) |}.

(** Modelled from the spec: [deps.emit] hands the event to the emission
    layer, the "fan-out of typed events to subscribers"; the event is
    recorded as observed. *)
Definition emit (ev : PlayerEvent) : M unit :=
  fun w => {| final := w; emitted := [Emit ev]; outcome := Ok tt |}.

(** [logger.error]: the line is recorded as observed. *)
Definition logger_error (label : string) (e : Error) : M unit :=
  fun w => {| final := w; emitted := [LogError label e]; outcome := Ok tt |}.

(** A command of a collaborator. *)
Definition call (A : Type) (f : X -> X * Result A) : M A :=
  fun w =>
    let (x, r) := f (pipeline w) in
    {| final := {| facade := facade w; pipeline := x |};
       emitted := [];
       outcome := r |}.

(** A getter of a collaborator. *)
Definition read (A : Type) (f : X -> A) : M A :=
  fun w => {| final := w; emitted := []; outcome := Ok (f (pipeline w)) |}.

(** ** The methods of [PlayerCore] *)

(** [private handleError(error: Error): void]. *)
Definition handleError (e : Error) : M unit :=
  update (StateFacade.updateError e) ;;
  emit (ev_error e) ;;
  logger_error "Player error:" e.

(** [async play(): Promise<void>]. *)
Definition play : M unit :=
  try_catch
    (s <- getState ;;
     match state s with
     | state_idle => throw {| message := "No media loaded" |}
     | _ =>
       call (playbackController_play deps) ;;
       update (StateFacade.updatePlaybackState true) ;;
       emit ev_play ;;
       emit ev_playing
     end)
    (fun e => handleError e ;; throw e).

(** [pause(): void]. *)
Definition pause : M unit :=
  call (playbackController_pause deps) ;;
  update (StateFacade.updatePlaybackState false) ;;
  emit ev_pause.

(** [async seek(time: number): Promise<void>]. *)
Definition seek (time : Q) : M unit :=
  try_catch
    (s <- getState ;;
     match state s with
     | state_idle => throw {| message := "No media loaded" |}
     | _ =>
       update (StateFacade.updateSeekingState true) ;;
       emit (ev_seeking time) ;;
       call (playbackController_seek deps time) ;;
       update (StateFacade.updateSeekingState false) ;;
       t <- call (playbackController_getCurrentTime deps) ;;
       update (StateFacade.updateTime t) ;;
       t' <- call (playbackController_getCurrentTime deps) ;;
       emit (ev_seeked t')
     end)
    (fun e =>
       update (StateFacade.updateSeekingState false) ;;
       handleError e ;;
       throw e).

(** [async stop(): Promise<void>]. *)
Definition stop : M unit :=
  try_catch
    (pause ;;
     seek 0)
    (fun e => handleError e ;; throw e).

(** [async load(source, options = {}): Promise<void>]. *)
Definition load (source : MediaSource) (options : LoadOptions) : M unit :=
  try_catch
    (update StateFacade.reset ;;
     update StateFacade.updateLoadingState ;;
     emit ev_loadstart ;;
     (* Create source and input *)
     sourceInfo <- call (sourceManager_createSource deps source) ;;
     match input sourceInfo with
     | None => throw {| message := "Failed to create input from source" |}
     | Some input =>
       (* Load tracks *)
       call (trackManager_initialize deps input) ;;
       (* Gather media info *)
       gathered <- call (promiseAll4 (settlesFirst deps)
                                     (input_computeDuration deps input)
                                     (input_getFormat deps input)
                                     (input_getMimeType deps input)
                                     (input_getMetadataTags deps input)) ;;
       let '(duration, format, mimeType, tags) := gathered in
       hasVideo <- read (trackManager_hasVideo deps) ;;
       hasAudio <- read (trackManager_hasAudio deps) ;;
       hasSubtitles <- read (trackManager_hasSubtitles deps) ;;
       let mediaInfo :=
         {| mediaDuration := duration; format := name format;
            mimeType := mimeType; metadata := tags;
            hasVideo := hasVideo; hasAudio := hasAudio;
            hasSubtitles := hasSubtitles |} in
       (* Update state *)
       update (StateFacade.updateDuration duration) ;;
       update (StateFacade.updateMediaInfo mediaInfo) ;;
       videoTracks <- read (trackManager_getVideoTracks deps) ;;
       audioTracks <- read (trackManager_getAudioTracks deps) ;;
       subtitleTracks <- read (trackManager_getSubtitleTracks deps) ;;
       update (StateFacade.updateTracks videoTracks audioTracks subtitleTracks) ;;
       call (playbackController_setDuration deps duration) ;;
       (* Setup initial tracks using switcher *)
       videoTrack <- read (trackManager_getPrimaryVideoTrack deps) ;;
       audioTrack <- read (trackManager_getPrimaryAudioTrack deps) ;;
       switched <-
         (if isSome videoTrack || isSome audioTrack then
            res <- call (trackSwitcher_setupInitialTracks deps videoTrack audioTrack) ;;
            ret {| warningMessage := "" ++ warningMessage res;
                   videoSupported := videoSupported res;
                   audioSupported := audioSupported res |}
          else
            ret {| warningMessage := "";
                   videoSupported := false;
                   audioSupported := false |}) ;;
       let warningMessage := warningMessage switched in
       let videoSupported := videoSupported switched in
       let audioSupported := audioSupported switched in
       if negb videoSupported && negb audioSupported then
         throw {| message := if truthy warningMessage then warningMessage
                             else "No audio or video track found." |}
       else
         (if truthy warningMessage && (videoSupported || audioSupported) then
            emit (ev_warning "codec-warning" (trim warningMessage))
          else ret tt) ;;
         (* Ready state and events *)
         update (StateFacade.updateReadyState true true) ;;
         emit (ev_loadedmetadata mediaInfo) ;;
         emit ev_loadeddata ;;
         emit ev_canplay ;;
         emit ev_canplaythrough ;;
         (match autoplay options with
          | Some true => play
          | _ => ret tt
          end) ;;
         (match startTime options with
          | Some t => seek t
          | None => ret tt
          end)
     end)
    (fun e => handleError e ;; throw e).

(** ** Sequences of calls *)

Inductive Call : Type :=
| CallLoad (source : MediaSource) (options : LoadOptions)
| CallPlay
| CallPause
| CallSeek (time : Q)
| CallStop.

Definition invoke (c : Call) : M unit :=
  match c with
  | CallLoad source options => load source options
  | CallPlay => play
  | CallPause => pause
  | CallSeek time => seek time
  | CallStop => stop
  end.

(** The calls of a caller that waits for each one to settle, whatever its
    outcome, before the next: the world they leave and everything observed
    on the way. *)
Fixpoint session (cs : list Call) (w : World) : World * list Action :=
  match cs with
  | [] => (w, [])
  | c :: cs' =>
    match invoke c w with
    | {| final := w1; emitted := l1; outcome := _ |} =>
      let (w', rest) := session cs' w1 in
      (w', l1 ++ rest)
    end
  end.

(** A player that was just constructed, over a pipeline in state [x]. *)
Definition newPlayer (x : X) : World :=
  {| facade := StateFacade.initialState; pipeline := x |}.

(** The snapshots and the events among the observed actions. *)
Fixpoint snapshots (l : list Action) : list PlayerState :=
  match l with
  | [] => []
  | Notify s :: l' => s :: snapshots l'
  | _ :: l' => snapshots l'
  end.

Fixpoint events (l : list Action) : list PlayerEvent :=
  match l with
  | [] => []
  | Emit ev :: l' => ev :: events l'
  | _ :: l' => events l'
  end.

(** The events of the load sequence, and [error]. *)
Definition loadOrError (ev : PlayerEvent) : bool :=
  match ev with
  | ev_loadstart | ev_loadedmetadata _ | ev_loadeddata
  | ev_canplay | ev_canplaythrough | ev_error _ => true
  | _ => false
  end.

(** ** Media info and tracks of one load

    [load] assembles the media info and reads the three track sequences
    after its own [Promise.all], from one state of the pipeline. *)
Definition tracksAt (x : X) : Tracks :=
  (trackManager_getVideoTracks deps x,
   trackManager_getAudioTracks deps x,
   trackManager_getSubtitleTracks deps x).

(** The media of the [load] of [source] that starts over the pipeline in
    state [x]: the media info it assembles from its input and the tracks
    it reads, as lines 126-158 get them; [None] when the load fails before
    it has them. *)
Definition loadMedia (source : MediaSource) (x : X)
    : option (MediaInfo * Tracks) :=
  match sourceManager_createSource deps source x with
  | (x1, Ok sourceInfo) =>
    match input sourceInfo with
    | Some input =>
      match trackManager_initialize deps input x1 with
      | (x2, Ok _) =>
        match promiseAll4 (settlesFirst deps)
                          (input_computeDuration deps input)
                          (input_getFormat deps input)
                          (input_getMimeType deps input)
                          (input_getMetadataTags deps input) x2 with
        | (x3, Ok (duration, format, mimeType, tags)) =>
          Some ({| mediaDuration := duration; format := name format;
                   mimeType := mimeType; metadata := tags;
                   hasVideo := trackManager_hasVideo deps x3;
                   hasAudio := trackManager_hasAudio deps x3;
                   hasSubtitles := trackManager_hasSubtitles deps x3 |},
                tracksAt x3)
        | (_, Throw _) => None
        end
      | (_, Throw _) => None
      end
    | None => None
    end
  | (_, Throw _) => None
  end.

(** A snapshot that shows no media: what [reset] leaves. *)
Definition showsNoMedia (s : PlayerState) : Prop :=
  mediaInfo s = None /\ tracks s = noTracks.

(** A snapshot that shows media of the load [m] and of no other: no media
    at all, or the media info of [m] over the tracks of [m] or, as long as
    they are not written, over the empty tracks that the [reset] of that
    load left. *)
Definition showsMediaOf (m : option (MediaInfo * Tracks)) (s : PlayerState)
    : Prop :=
  showsNoMedia s \/
  exists info loaded,
    m = Some (info, loaded) /\
    mediaInfo s = Some info /\
    (tracks s = noTracks \/ tracks s = loaded).

(** A snapshot that shows the media info and the tracks of another. *)
Definition sameMedia (s s' : PlayerState) : Prop :=
  mediaInfo s' = mediaInfo s /\ tracks s' = tracks s.

(** The load a call belongs to: a [load] starts its own, every other call
    acts on the media of the load before it. *)
Definition loadOf (c : Call) (w : World) (current : option (MediaInfo * Tracks))
    : option (MediaInfo * Tracks) :=
  match c with
  | CallLoad source _ => loadMedia source (pipeline w)
  | _ => current
  end.

(** The snapshots of a session, each with the load it was taken in;
    [current] is the load before the first call, if any. *)
Fixpoint attributed (cs : list Call) (w : World)
    (current : option (MediaInfo * Tracks))
    : list (option (MediaInfo * Tracks) * PlayerState) :=
  match cs with
  | [] => []
  | c :: cs' =>
    map (pair (loadOf c w current)) (snapshots (emitted (invoke c w)))
    ++ attributed cs' (final (invoke c w)) (loadOf c w current)
  end.

(** ** The trailing steps of [load]

    What [load] does after the ready events: [play] when [autoplay] is
    set, then [seek] when a [startTime] is given. *)
Definition trailing (options : LoadOptions) : M unit :=
  (match autoplay options with
   | Some true => play
   | _ => ret tt
   end) ;;
  (match startTime options with
   | Some t => seek t
   | None => ret tt
   end).

(** The observations [handleError] makes for an error, once the state is
    [s]. *)
Definition errorReport (s : PlayerState) (e : Error) : list Action :=
  [Notify s; Emit (ev_error e); LogError "Player error:" e].

Definition isErrorEvent (ev : PlayerEvent) : bool :=
  match ev with ev_error _ => true | _ => false end.

Definition isWarningEvent (ev : PlayerEvent) : bool :=
  match ev with ev_warning _ _ => true | _ => false end.

End PlayerCore.

(** ** A concrete pipeline

    A pipeline to run the player on: sources and inputs are names, the
    track manager hands out the tracks of the configuration, the switcher
    reports what the configuration says, and the controller lands a seek on
    the key frame at or before the request (one every two seconds), never
    before the first frame of the stream.  The position is a clock: while
    the media plays, it has moved on by half a second each time it is
    read. *)

Module Fixture.

Record Config : Type := {
  cfg_tracks : Tracks;
  cfg_switch : TrackSwitchResult;
  cfg_firstFrame : Q;
  cfg_pauseThrows : bool;
  cfg_seekThrows : bool
}.

Record Pipeline : Type := {
  position : Q;
  running : bool;
  opened : Tracks
}.

Definition idlePipeline : Pipeline :=
  {| position := 0; running := false; opened := noTracks |}.

Definition keyframe (t : Q) : Q := inject_Z (2 * Qfloor (t / 2)).

Definition videoOf (t : Tracks) : list Track := fst (fst t).
Definition audioOf (t : Tracks) : list Track := snd (fst t).
Definition subtitleOf (t : Tracks) : list Track := snd t.

Definition nonEmpty (l : list Track) : bool :=
  match l with [] => false | _ :: _ => true end.

Definition deps (c : Config) : PlayerCoreDeps Pipeline string string :=
  {| sourceManager_createSource := fun source x =>
       (x, Ok {| input := if truthy source then Some source else None |});
     trackManager_initialize := fun _ x =>
       ({| position := position x; running := running x;
           opened := cfg_tracks c |}, Ok tt);
     trackManager_hasVideo := fun x => nonEmpty (videoOf (opened x));
     trackManager_hasAudio := fun x => nonEmpty (audioOf (opened x));
     trackManager_hasSubtitles := fun x => nonEmpty (subtitleOf (opened x));
     trackManager_getVideoTracks := fun x => videoOf (opened x);
     trackManager_getAudioTracks := fun x => audioOf (opened x);
     trackManager_getSubtitleTracks := fun x => subtitleOf (opened x);
     trackManager_getPrimaryVideoTrack := fun x => hd_error (videoOf (opened x));
     trackManager_getPrimaryAudioTrack := fun x => hd_error (audioOf (opened x));
     input_computeDuration := fun _ x => (x, Ok 60);
     input_getFormat := fun _ x => (x, Ok {| name := "mp4" |});
     input_getMimeType := fun _ x => (x, Ok "video/mp4"%string);
     input_getMetadataTags := fun _ x => (x, Ok [("title", "clip")]%string);
     trackSwitcher_setupInitialTracks := fun _ _ x => (x, Ok (cfg_switch c));
     playbackController_setDuration := fun _ x => (x, Ok tt);
     playbackController_play := fun x =>
       ({| position := position x; running := true; opened := opened x |}, Ok tt);
     playbackController_pause := fun x =>
       if cfg_pauseThrows c
       then (x, Throw {| message := "Audio output is gone" |})
       else ({| position := position x; running := false;
                opened := opened x |}, Ok tt);
     playbackController_seek := fun t x =>
       if cfg_seekThrows c
       then (x, Throw {| message := "Seek failed" |})
       else ({| position := Qmax (cfg_firstFrame c) (keyframe t);
                running := running x; opened := opened x |}, Ok tt);
     playbackController_getCurrentTime := fun x =>
       ({| position := if running x then Qred (position x + (1 # 2))
                       else position x;
           running := running x; opened := opened x |}, Ok (position x));
     settlesFirst := fun _ => O |}.

Definition h264 : Track := {| id := "v1"; codec := "avc1"; language := "und" |}.
Definition hevc : Track := {| id := "v1"; codec := "hev1"; language := "und" |}.
Definition aac : Track := {| id := "a1"; codec := "mp4a"; language := "en" |}.

(** A clip that plays: one video and one audio track, both supported. *)
Definition playable : Config :=
  {| cfg_tracks := ([h264], [aac], []);
     cfg_switch := {| warningMessage := ""; videoSupported := true;
                      audioSupported := true |};
     cfg_firstFrame := 0;
     cfg_pauseThrows := false;
     cfg_seekThrows := false |}.

(** A clip whose only track cannot be decoded. *)
Definition undecodable : Config :=
  {| cfg_tracks := ([hevc], [], []);
     cfg_switch := {| warningMessage := "Unsupported video codec: hev1";
                      videoSupported := false; audioSupported := false |};
     cfg_firstFrame := 0;
     cfg_pauseThrows := false;
     cfg_seekThrows := false |}.

(** A container without any video or audio track. *)
Definition trackless : Config :=
  {| cfg_tracks := noTracks;
     cfg_switch := {| warningMessage := ""; videoSupported := false;
                      audioSupported := false |};
     cfg_firstFrame := 0;
     cfg_pauseThrows := false;
     cfg_seekThrows := false |}.

(** A stream whose first frame is stamped half a second in. *)
Definition offsetStream : Config :=
  {| cfg_tracks := ([h264], [aac], []);
     cfg_switch := {| warningMessage := ""; videoSupported := true;
                      audioSupported := true |};
     cfg_firstFrame := 1 # 2;
     cfg_pauseThrows := false;
     cfg_seekThrows := false |}.

(** A controller whose [pause] throws. *)
Definition brokenPause : Config :=
  {| cfg_tracks := ([h264], [aac], []);
     cfg_switch := {| warningMessage := ""; videoSupported := true;
                      audioSupported := true |};
     cfg_firstFrame := 0;
     cfg_pauseThrows := true;
     cfg_seekThrows := false |}.

(** A controller whose [seek] rejects. *)
Definition brokenSeek : Config :=
  {| cfg_tracks := ([h264], [aac], []);
     cfg_switch := {| warningMessage := ""; videoSupported := true;
                      audioSupported := true |};
     cfg_firstFrame := 0;
     cfg_pauseThrows := false;
     cfg_seekThrows := true |}.

(** The world after [load "clip.mp4"] on a new player. *)
Definition loaded (c : Config) : World Pipeline :=
  final (load (deps c) "clip.mp4"%string noOptions (newPlayer idlePipeline)).

(** A clip whose video cannot be decoded while its audio can: the switcher
    reports the video with a warning. *)
Definition audioOnly : Config :=
  {| cfg_tracks := ([hevc], [aac], []);
     cfg_switch := {| warningMessage := " Unsupported video codec: hev1 ";
                      videoSupported := false; audioSupported := true |};
     cfg_firstFrame := 0;
     cfg_pauseThrows := false;
     cfg_seekThrows := false |}.

(** The pipeline of a playable clip, but for a controller whose [play]
    rejects. *)
Definition brokenPlay : PlayerCoreDeps Pipeline string string :=
  let d := deps playable in
  {| sourceManager_createSource := sourceManager_createSource d;
     trackManager_initialize := trackManager_initialize d;
     trackManager_hasVideo := trackManager_hasVideo d;
     trackManager_hasAudio := trackManager_hasAudio d;
     trackManager_hasSubtitles := trackManager_hasSubtitles d;
     trackManager_getVideoTracks := trackManager_getVideoTracks d;
     trackManager_getAudioTracks := trackManager_getAudioTracks d;
     trackManager_getSubtitleTracks := trackManager_getSubtitleTracks d;
     trackManager_getPrimaryVideoTrack := trackManager_getPrimaryVideoTrack d;
     trackManager_getPrimaryAudioTrack := trackManager_getPrimaryAudioTrack d;
     input_computeDuration := input_computeDuration d;
     input_getFormat := input_getFormat d;
     input_getMimeType := input_getMimeType d;
     input_getMetadataTags := input_getMetadataTags d;
     trackSwitcher_setupInitialTracks := trackSwitcher_setupInitialTracks d;
     playbackController_setDuration := playbackController_setDuration d;
     playbackController_play := fun x =>
       (x, Throw {| message := "Decoder is gone" |});
     playbackController_pause := playbackController_pause d;
     playbackController_seek := playbackController_seek d;
     playbackController_getCurrentTime := playbackController_getCurrentTime d;
     settlesFirst := settlesFirst d |}.

(** The pipeline of a playable clip, but for an input whose duration and
    format both fail to compute, the format being the first to fail. *)
Definition racing : PlayerCoreDeps Pipeline string string :=
  let d := deps playable in
  {| sourceManager_createSource := sourceManager_createSource d;
     trackManager_initialize := trackManager_initialize d;
     trackManager_hasVideo := trackManager_hasVideo d;
     trackManager_hasAudio := trackManager_hasAudio d;
     trackManager_hasSubtitles := trackManager_hasSubtitles d;
     trackManager_getVideoTracks := trackManager_getVideoTracks d;
     trackManager_getAudioTracks := trackManager_getAudioTracks d;
     trackManager_getSubtitleTracks := trackManager_getSubtitleTracks d;
     trackManager_getPrimaryVideoTrack := trackManager_getPrimaryVideoTrack d;
     trackManager_getPrimaryAudioTrack := trackManager_getPrimaryAudioTrack d;
     input_computeDuration := fun _ x =>
       (x, Throw {| message := "duration failed" |});
     input_getFormat := fun _ x =>
       (x, Throw {| message := "format failed" |});
     input_getMimeType := input_getMimeType d;
     input_getMetadataTags := input_getMetadataTags d;
     trackSwitcher_setupInitialTracks := trackSwitcher_setupInitialTracks d;
     playbackController_setDuration := playbackController_setDuration d;
     playbackController_play := playbackController_play d;
     playbackController_pause := playbackController_pause d;
     playbackController_seek := playbackController_seek d;
     playbackController_getCurrentTime := playbackController_getCurrentTime d;
     settlesFirst := fun _ => 1%nat |}.

End Fixture.

End Player.

(* ===================================================================== *)
(** * useAVPlay *)
(* ===================================================================== *)

(** The React hook of packages/react/src/useAVPlay.ts: the effect that
    attaches the event handlers of the options to the player and detaches
    them again, and the store of subscribers behind [useSyncExternalStore].
    Functions are told apart by their identity: a handler is a value of
    [H], a store callback a number. *)

Module Hook.

(** The keys of [PlayerEventMap] the hook has a handler option for. *)
Inductive EventName : Type :=
| loadstart | loadedmetadata | loadeddata | canplay | canplaythrough
| play | pause | playing | ended | timeupdate | durationchange
| volumechange | ratechange | seeking | seeked | waiting | progress
| error | warning | trackchange | statechange.

Section Handlers.

Variable H : Type.

(** The handler members of [UseAVPlayOptions]; [None] is [undefined]. *)
Record UseAVPlayOptions : Type := {
  onLoadStart : option H;
  onLoadedMetadata : option H;
  onLoadedData : option H;
  onCanPlay : option H;
  onCanPlayThrough : option H;
  onPlay : option H;
  onPause : option H;
  onPlaying : option H;
  onEnded : option H;
  onTimeUpdate : option H;
  onDurationChange : option H;
  onVolumeChange : option H;
  onRateChange : option H;
  onSeeking : option H;
  onSeeked : option H;
  onWaiting : option H;
  onProgress : option H;
  onError : option H;
  onWarning : option H;
  onTrackChange : option H;
  onStateChange : option H
}.

(** The calls the effect makes on the player. *)
Inductive PlayerCall : Type :=
| On (event : EventName) (handler : H)
| Off (event : EventName) (handler : H).

(** The effect's locals: the calls made so far and the [handlers] array. *)
Definition Registry : Type := (list PlayerCall * list (EventName * H))%type.

(** [registerHandler(event, handler)]. *)
Definition registerHandler (event : EventName) (handler : option H)
    (acc : Registry) : Registry :=
  match handler with
  | Some h => (fst acc ++ [On event h], snd acc ++ [(event, h)])
  | None => acc
  end.

(** The body of the effect "Setup event handlers", given whether
    [playerRef.current] holds a player: [None] is the early [return], with
    no cleanup; otherwise the calls made on the player and the [handlers]
    array the cleanup closes over. *)
Definition setupHandlers (options : UseAVPlayOptions) (hasPlayer : bool)
    : option Registry :=
  if negb hasPlayer then None else
  let acc := ([], []) in
  let acc := registerHandler loadstart (onLoadStart options) acc in
  let acc := registerHandler loadedmetadata (onLoadedMetadata options) acc in
  let acc := registerHandler loadeddata (onLoadedData options) acc in
  let acc := registerHandler canplay (onCanPlay options) acc in
  let acc := registerHandler canplaythrough (onCanPlayThrough options) acc in
  let acc := registerHandler play (onPlay options) acc in
  let acc := registerHandler pause (onPause options) acc in
  let acc := registerHandler playing (onPlaying options) acc in
  let acc := registerHandler ended (onEnded options) acc in
  let acc := registerHandler timeupdate (onTimeUpdate options) acc in
  let acc := registerHandler durationchange (onDurationChange options) acc in
  let acc := registerHandler volumechange (onVolumeChange options) acc in
  let acc := registerHandler ratechange (onRateChange options) acc in
  let acc := registerHandler seeking (onSeeking options) acc in
  let acc := registerHandler seeked (onSeeked options) acc in
  let acc := registerHandler waiting (onWaiting options) acc in
  let acc := registerHandler progress (onProgress options) acc in
  let acc := registerHandler error (onError options) acc in
  let acc := registerHandler warning (onWarning options) acc in
  let acc := registerHandler trackchange (onTrackChange options) acc in
  let acc := registerHandler statechange (onStateChange options) acc in
  Some acc.

(** The cleanup the effect returns: [player.off] for every entry of
    [handlers], in the order of the array. *)
Definition cleanupHandlers (handlers : list (EventName * H)) : list PlayerCall :=
  map (fun entry => Off (fst entry) (snd entry)) handlers.

(** The handler option the effect reads for an event. *)
Definition handlerOf (options : UseAVPlayOptions) (event : EventName) : option H :=
  match event with
  | loadstart => onLoadStart options
  | loadedmetadata => onLoadedMetadata options
  | loadeddata => onLoadedData options
  | canplay => onCanPlay options
  | canplaythrough => onCanPlayThrough options
  | play => onPlay options
  | pause => onPause options
  | playing => onPlaying options
  | ended => onEnded options
  | timeupdate => onTimeUpdate options
  | durationchange => onDurationChange options
  | volumechange => onVolumeChange options
  | ratechange => onRateChange options
  | seeking => onSeeking options
  | seeked => onSeeked options
  | waiting => onWaiting options
  | progress => onProgress options
  | error => onError options
  | warning => onWarning options
  | trackchange => onTrackChange options
  | statechange => onStateChange options
  end.

(** The order in which the effect goes through the events. *)
Definition registrationOrder : list EventName :=
  [loadstart; loadedmetadata; loadeddata; canplay; canplaythrough;
   play; pause; playing; ended; timeupdate; durationchange;
   volumechange; ratechange; seeking; seeked; waiting; progress;
   error; warning; trackchange; statechange].

(** The entry an event contributes to [handlers]. *)
Definition entryOf (options : UseAVPlayOptions) (event : EventName)
    : list (EventName * H) :=
  match handlerOf options event with
  | Some h => [(event, h)]
  | None => []
  end.

(** The effect as one pass over the events in that order. *)
Definition registerAll (options : UseAVPlayOptions) (events : list EventName)
    (acc : Registry) : Registry :=
  fold_left (fun acc event => registerHandler event (handlerOf options event) acc)
            events acc.

End Handlers.

(** ** The store behind [useSyncExternalStore] *)

Section Store.

Variable S : Type.

(** [stateRef] and [subscribersRef]; the set keeps the callbacks in the
    order they were added, each once. *)
Record Refs : Type := {
  stateRef : option S;
  subscribersRef : list nat
}.

(** [Set.prototype.add]. *)
Definition setAdd (cb : nat) (l : list nat) : list nat :=
  if existsb (Nat.eqb cb) l then l else l ++ [cb].

(** [Set.prototype.delete]. *)
Definition setDelete (cb : nat) (l : list nat) : list nat :=
  filter (fun c => negb (Nat.eqb cb c)) l.

(** [subscribe(onStoreChange)]: adds the callback. *)
Definition subscribe (onStoreChange : nat) (r : Refs) : Refs :=
  {| stateRef := stateRef r;
     subscribersRef := setAdd onStoreChange (subscribersRef r) |}.

(** The function [subscribe] returns: deletes the callback. *)
Definition unsubscribe (onStoreChange : nat) (r : Refs) : Refs :=
  {| stateRef := stateRef r;
     subscribersRef := setDelete onStoreChange (subscribersRef r) |}.

(** [getSnapshot()]. *)
Definition getSnapshot (r : Refs) : option S := stateRef r.

(** The listener the hook gives to [player.subscribe]: stores the new
    state, then calls every subscriber; the result lists the callbacks in
    the order they are called. *)
Definition onPlayerState (newState : S) (r : Refs) : Refs * list nat :=
  ({| stateRef := Some newState; subscribersRef := subscribersRef r |},
   subscribersRef r).

(** What React does to the store over time. *)
Inductive StoreCall : Type :=
| Subscribe (cb : nat)
| Unsubscribe (cb : nat).

Definition storeCall (r : Refs) (c : StoreCall) : Refs :=
  match c with
  | Subscribe cb => subscribe cb r
  | Unsubscribe cb => unsubscribe cb r
  end.

(** The refs of a hook that was just mounted. *)
Definition mounted : Refs := {| stateRef := None; subscribersRef := [] |}.

(** Whether the last call about a callback was a [Subscribe]. *)
Fixpoint subscribed (cb : nat) (history : list StoreCall) : bool :=
  match history with
  | [] => false
  | c :: earlier =>
    match c with
    | Subscribe cb' => if Nat.eqb cb cb' then true else subscribed cb earlier
    | Unsubscribe cb' => if Nat.eqb cb cb' then false else subscribed cb earlier
    end
  end.

End Store.

End Hook.

(* ===================================================================== *)
(** * Properties of Canvas2DRenderer *)
(* ===================================================================== *)

Module Canvas2DFacts.

Import Canvas2D.
Local Open Scope Q_scope.

(** ** Rounding *)

Lemma round_bounds (x : Q) :
  inject_Z (round x) <= x + (1 # 2) /\ x - (1 # 2) < inject_Z (round x).
Proof.
  unfold round. split; [apply Qfloor_le|].
  pose proof (Qlt_floor (x + (1 # 2))) as H.
  set (a := Qfloor (x + (1 # 2))) in *.
  rewrite inject_Z_plus in H. change (inject_Z 1) with 1 in H. lra.
Qed.

Lemma round_mono (x y : Q) : x <= y -> (round x <= round y)%Z.
Proof. intros H. apply Qfloor_resp_le. lra. Qed.

(** A number less than one half away from an integer rounds to it. *)
Lemma round_eq (x : Q) (z : Z) :
  inject_Z z - (1 # 2) <= x -> x < inject_Z z + (1 # 2) -> round x = z.
Proof.
  intros Hl Hu. destruct (round_bounds x) as [H1 H2].
  set (a := round x) in *.
  assert (inject_Z a < inject_Z (z + 1)) as Ha.
  { rewrite inject_Z_plus. change (inject_Z 1) with 1. lra. }
  assert (inject_Z z < inject_Z (a + 1)) as Hb.
  { rewrite inject_Z_plus. change (inject_Z 1) with 1. lra. }
  rewrite <- Zlt_Qlt in Ha, Hb. lia.
Qed.

Lemma round_Z (z : Z) : round (inject_Z z) = z.
Proof. apply round_eq; lra. Qed.

(** Half of a distance, rounded, lies within the distance. *)
Lemma round_half (d : Z) : (0 <= d)%Z -> (0 <= round (inject_Z d / 2) <= d)%Z.
Proof.
  intros Hd.
  destruct (round_bounds (inject_Z d / 2)) as [H1 H2].
  set (a := round (inject_Z d / 2)) in *.
  unfold Qdiv in H1, H2. change (/ 2) with (1 # 2) in H1, H2.
  assert (inject_Z (2 * a) <= inject_Z (d + 1)) as Ha.
  { rewrite inject_Z_mult, inject_Z_plus.
    change (inject_Z 2) with 2. change (inject_Z 1) with 1. lra. }
  assert (inject_Z (d - 1) < inject_Z (2 * a)) as Hb.
  { unfold Z.sub. rewrite inject_Z_mult, inject_Z_plus.
    change (inject_Z 2) with 2. change (inject_Z (- (1))) with (- (1)). lra. }
  rewrite <- Zle_Qle in Ha. rewrite <- Zlt_Qlt in Hb. lia.
Qed.

(** ** Doubles *)

Lemma pow2_pos (z : Z) : 0 < 2 ^ z.
Proof. apply Qpower_0_lt. reflexivity. Qed.

Lemma pow2_inject (a : Z) : (0 <= a)%Z -> 2 ^ a == inject_Z (2 ^ a).
Proof. intros H. rewrite Zpower_Qpower by assumption. reflexivity. Qed.

Lemma pow2_sub (a b : Z) : 2 ^ (a - b) == 2 ^ a / 2 ^ b.
Proof.
  unfold Z.sub. rewrite Qpower_plus by discriminate.
  rewrite Qpower_opp. reflexivity.
Qed.

Lemma Q_as_div (x : Q) : x == inject_Z (Qnum x) / inject_Z (Z.pos (Qden x)).
Proof. destruct x as [n d]. apply Qmake_Qdiv. Qed.

Lemma div_le_cross (a b c d : Q) :
  0 < b -> 0 < d -> a * d <= c * b -> a / b <= c / d.
Proof.
  intros Hb Hd H. apply Qle_shift_div_l; [assumption|].
  assert (a / b * d == a * d / b) as -> by (field; lra).
  apply Qle_shift_div_r; assumption.
Qed.

Lemma div_lt_cross (a b c d : Q) :
  0 < b -> 0 < d -> a * d < c * b -> a / b < c / d.
Proof.
  intros Hb Hd H. apply Qlt_shift_div_l; [assumption|].
  assert (a / b * d == a * d / b) as -> by (field; lra).
  apply Qlt_shift_div_r; assumption.
Qed.

(** [ilog2 x] is the binary exponent of [x]. *)
Lemma ilog2_spec (x : Q) :
  0 < x -> 2 ^ ilog2 x <= x /\ x < 2 ^ (ilog2 x + 1).
Proof.
  intros Hx. unfold ilog2.
  set (n := Qnum x). set (d := Z.pos (Qden x)).
  assert (0 < n)%Z as Hn
    by (destruct x as [[|p|p] q]; simpl in *; unfold n; simpl; try lia; discriminate).
  assert (0 < d)%Z as Hd by (unfold d; lia).
  destruct (Z.log2_spec n Hn) as [Hn1 Hn2].
  destruct (Z.log2_spec d Hd) as [Hd1 Hd2].
  pose proof (Z.log2_nonneg n) as Ha. pose proof (Z.log2_nonneg d) as Hb.
  set (a := Z.log2 n) in *. set (b := Z.log2 d) in *.
  assert (0 < 2 ^ a)%Z as Pa by (apply Z.pow_pos_nonneg; lia).
  assert (0 < 2 ^ b)%Z as Pb by (apply Z.pow_pos_nonneg; lia).
  rewrite Z.pow_succ_r in Hn2, Hd2 by assumption.
  assert (0 < inject_Z d) as Hdq
    by (change 0 with (inject_Z 0); rewrite <- Zlt_Qlt; lia).
  assert (0 < inject_Z (2 ^ b)) as Hbq
    by (change 0 with (inject_Z 0); rewrite <- Zlt_Qlt; lia).
  assert (0 < inject_Z (2 * 2 ^ b)) as Hbq'
    by (change 0 with (inject_Z 0); rewrite <- Zlt_Qlt; lia).
  assert (x == inject_Z n / inject_Z d) as Ex by apply Q_as_div.
  destruct (Qle_bool (2 ^ (a - b)) x) eqn:E.
  - apply Qle_bool_iff in E. split; [exact E|].
    replace (a - b + 1)%Z with (Z.succ a - b)%Z by lia.
    rewrite pow2_sub, Ex, !pow2_inject by lia.
    rewrite Z.pow_succ_r by assumption.
    apply div_lt_cross; try assumption.
    rewrite <- !inject_Z_mult, <- Zlt_Qlt. nia.
  - assert (x < 2 ^ (a - b)) as E'.
    { apply Qnot_le_lt. intros H. apply Qle_bool_iff in H. congruence. }
    replace (a - b - 1 + 1)%Z with (a - b)%Z by lia. split; [|exact E'].
    replace (a - b - 1)%Z with (a - Z.succ b)%Z by lia.
    rewrite pow2_sub, Ex, !pow2_inject by lia.
    rewrite Z.pow_succ_r by assumption.
    apply div_le_cross; try assumption.
    rewrite <- !inject_Z_mult, <- Zle_Qle. nia.
Qed.

Lemma roundTiesToEven_error (y : Q) :
  inject_Z (roundTiesToEven y) - (1 # 2) <= y /\
  y <= inject_Z (roundTiesToEven y) + (1 # 2).
Proof.
  unfold roundTiesToEven.
  pose proof (Qfloor_le y) as H1. pose proof (Qlt_floor y) as H2.
  set (f := Qfloor y) in *. rewrite inject_Z_plus in H2.
  change (inject_Z 1) with 1 in H2.
  destruct (Qcompare (y - inject_Z f) (1 # 2)) eqn:E.
  - apply Qeq_alt in E.
    destruct (Z.even f); rewrite ?inject_Z_plus; change (inject_Z 1) with 1; lra.
  - apply Qlt_alt in E. lra.
  - apply Qgt_alt in E. rewrite inject_Z_plus. change (inject_Z 1) with 1. lra.
Qed.

(** The nearest double is within half a unit in the last place, hence
    within the relative error [eps]. *)
Lemma nearest_error (x : Q) :
  0 < x -> x * (1 - eps) <= nearest x /\ nearest x <= x * (1 + eps).
Proof.
  intros Hx. unfold nearest. rewrite Qred_correct.
  destruct (ilog2_spec Hx) as [He _].
  set (e := ilog2 x) in *.
  assert (2 ^ (e - 52) == 2 ^ e * (1 # 4503599627370496)) as Eu.
  { rewrite pow2_sub. change (2 ^ 52) with (4503599627370496 # 1). field. }
  pose proof (pow2_pos e) as Pe.
  set (u := 2 ^ (e - 52)) in *.
  assert (0 < u) as Pu by (rewrite Eu; lra).
  destruct (roundTiesToEven_error (x / u)) as [R1 R2].
  set (k := inject_Z (roundTiesToEven (x / u))) in *.
  assert (x == x / u * u) as Ex by (field; lra).
  assert ((k - (1 # 2)) * u <= x / u * u) as M1
    by (apply Qmult_le_compat_r; lra).
  assert (x / u * u <= (k + (1 # 2)) * u) as M2
    by (apply Qmult_le_compat_r; lra).
  rewrite <- Ex in M1, M2. unfold eps.
  split; lra.
Qed.

Lemma double_zero (x : Q) : x == 0 -> double x = 0.
Proof. intros H. apply Qeq_alt in H. unfold double. rewrite H. reflexivity. Qed.

Lemma double_error (x : Q) :
  0 <= x -> x * (1 - eps) <= double x /\ double x <= x * (1 + eps).
Proof.
  intros Hx. unfold double. destruct (Qcompare x 0) eqn:E.
  - apply Qeq_alt in E. rewrite E. unfold eps. split; lra.
  - apply Qlt_alt in E. lra.
  - apply Qgt_alt in E. apply nearest_error. exact E.
Qed.

Lemma Qmin_cases (x y : Q) :
  (Qmin x y = x /\ x <= y) \/ (Qmin x y = y /\ y <= x).
Proof.
  unfold Qmin, GenericMinMax.gmin. destruct (Qcompare x y) eqn:E.
  - left. split; [reflexivity|]. apply Qeq_alt in E. rewrite E. apply Qle_refl.
  - left. split; [reflexivity|]. apply Qlt_alt in E. apply Qlt_le_weak, E.
  - right. split; [reflexivity|]. apply Qgt_alt in E. apply Qlt_le_weak, E.
Qed.

(** The rounded product of [b] and a scale [s] that is near [q]. *)
Lemma product_upper (b q s : Q) :
  0 < b -> 0 <= s -> s <= q * (1 + eps) ->
  0 <= double (b * s) /\ double (b * s) <= b * q * (1 + eps) * (1 + eps).
Proof.
  intros Hb Hs Hq.
  assert (0 <= b * s) as Hx by (apply Qmult_le_0_compat; lra).
  destruct (double_error Hx) as [H1 H2].
  assert (b * s <= b * (q * (1 + eps))) as H3
    by (apply Qmult_le_l; assumption).
  unfold eps in *. split; lra.
Qed.

Lemma product_lower (b q s : Q) :
  0 < b -> 0 <= q -> q * (1 - eps) <= s ->
  b * q * (1 - eps) * (1 - eps) <= double (b * s).
Proof.
  intros Hb Hq Hs.
  assert (0 <= s) as Hs0 by (unfold eps in *; lra).
  assert (0 <= b * s) as Hx by (apply Qmult_le_0_compat; lra).
  destruct (double_error Hx) as [H1 H2].
  assert (b * (q * (1 - eps)) <= b * s) as H3
    by (apply Qmult_le_l; assumption).
  unfold eps in *. lra.
Qed.

(** ** The scale *)

Lemma num_pos (n : N) : n <> 0%N -> 0 < num n.
Proof.
  intros H. unfold num. change 0 with (inject_Z 0). rewrite <- Zlt_Qlt. lia.
Qed.

Lemma num_nonneg (n : N) : 0 <= num n.
Proof.
  unfold num. change 0 with (inject_Z 0). rewrite <- Zle_Qle. lia.
Qed.

Lemma num_bound (n : N) : unsignedLong n -> num n <= 4294967295.
Proof.
  unfold unsignedLong, num. intros H.
  change 4294967295 with (inject_Z 4294967295). rewrite <- Zle_Qle.
  change (2 ^ 32)%N with 4294967296%N in H. lia.
Qed.

Lemma ratio_nonneg (a b : N) : b <> 0%N -> 0 <= num a / num b.
Proof.
  intros Hb. apply Qle_shift_div_l; [apply num_pos, Hb|].
  rewrite Qmult_0_l. apply num_nonneg.
Qed.

Lemma idealScale_nonneg (sw sh cw ch : N) :
  sw <> 0%N -> sh <> 0%N -> 0 <= idealScale sw sh cw ch.
Proof.
  intros Hsw Hsh. unfold idealScale.
  apply Q.min_glb; apply ratio_nonneg; assumption.
Qed.

Lemma scale_nonneg (sw sh cw ch : N) :
  sw <> 0%N -> sh <> 0%N -> 0 <= scale sw sh cw ch.
Proof.
  intros Hsw Hsh. unfold scale.
  pose proof (double_error (ratio_nonneg cw Hsw)) as [H1 _].
  pose proof (double_error (ratio_nonneg ch Hsh)) as [H2 _].
  pose proof (ratio_nonneg cw Hsw). pose proof (ratio_nonneg ch Hsh).
  apply Q.min_glb; unfold eps in *; lra.
Qed.

(** The scale the code computes is the ideal one up to the relative
    error of one division. *)
Lemma scale_near (sw sh cw ch : N) :
  sw <> 0%N -> sh <> 0%N ->
  idealScale sw sh cw ch * (1 - eps) <= scale sw sh cw ch /\
  scale sw sh cw ch <= idealScale sw sh cw ch * (1 + eps).
Proof.
  intros Hsw Hsh. unfold scale, idealScale.
  pose proof (ratio_nonneg cw Hsw) as Pa. pose proof (ratio_nonneg ch Hsh) as Pb.
  destruct (double_error Pa) as [A1 A2]. destruct (double_error Pb) as [B1 B2].
  set (a := num cw / num sw) in *. set (b := num ch / num sh) in *.
  pose proof (Q.le_min_l a b) as La. pose proof (Q.le_min_r a b) as Lb.
  pose proof (Q.le_min_l (double a) (double b)) as La'.
  pose proof (Q.le_min_r (double a) (double b)) as Lb'.
  split.
  - destruct (Qmin_cases (double a) (double b)) as [[-> _] | [-> _]];
      unfold eps in *; lra.
  - destruct (Qmin_cases a b) as [[-> _] | [-> _]]; unfold eps in *; lra.
Qed.

Lemma scale_le_width (sw sh cw ch : N) :
  sw <> 0%N -> scale sw sh cw ch <= num cw / num sw * (1 + eps).
Proof.
  intros Hsw. unfold scale.
  destruct (double_error (ratio_nonneg cw Hsw)) as [_ A2].
  pose proof (Q.le_min_l (double (num cw / num sw)) (double (num ch / num sh))).
  lra.
Qed.

Lemma scale_le_height (sw sh cw ch : N) :
  sh <> 0%N -> scale sw sh cw ch <= num ch / num sh * (1 + eps).
Proof.
  intros Hsh. unfold scale.
  destruct (double_error (ratio_nonneg ch Hsh)) as [_ A2].
  pose proof (Q.le_min_r (double (num cw / num sw)) (double (num ch / num sh))).
  lra.
Qed.

Lemma ratio_times (a b : N) : b <> 0%N -> num b * (num a / num b) == num a.
Proof. intros Hb. pose proof (num_pos Hb). field. lra. Qed.

(** ** The destination rectangle *)

(** A side of the source times a scale that does not exceed the ratio of
    that side, rounded twice, stays within the canvas: the two relative
    errors are far below half a pixel. *)
Lemma side_fits (b a : N) (s : Q) :
  b <> 0%N -> unsignedLong a ->
  0 <= s -> s <= num a / num b * (1 + eps) ->
  (0 <= round (double (num b * s)) <= Z.of_N a)%Z.
Proof.
  intros Hb Ha Hs0 Hs.
  destruct (product_upper (num_pos Hb) Hs0 Hs) as [P1 P2].
  rewrite (ratio_times a Hb) in P2.
  pose proof (num_bound Ha) as Hn. pose proof (num_nonneg a) as H0.
  split.
  - rewrite <- (round_Z 0). apply round_mono. exact P1.
  - destruct (round_bounds (double (num b * s))) as [R1 _].
    set (z := round (double (num b * s))) in *.
    assert (inject_Z z < inject_Z (Z.of_N a + 1)) as Hz.
    { rewrite inject_Z_plus. fold (num a). change (inject_Z 1) with 1.
      unfold eps in *. lra. }
    rewrite <- Zlt_Qlt in Hz. lia.
Qed.

(** With a scale within [eps] of the ratio of that side, the side of the
    canvas is hit exactly. *)
Lemma side_hits (b a : N) (s : Q) :
  b <> 0%N -> unsignedLong a ->
  num a / num b * (1 - eps) <= s -> s <= num a / num b * (1 + eps) ->
  round (double (num b * s)) = Z.of_N a.
Proof.
  intros Hb Ha D1 D2.
  pose proof (ratio_nonneg a Hb) as Hr.
  assert (0 <= s) as Hs0 by (unfold eps in *; lra).
  destruct (product_upper (num_pos Hb) Hs0 D2) as [_ P2].
  pose proof (product_lower (num_pos Hb) Hr D1) as P1.
  rewrite (ratio_times a Hb) in P1, P2.
  pose proof (num_bound Ha) as Hn. pose proof (num_nonneg a) as H0.
  apply round_eq; fold (num a); unfold eps in *; lra.
Qed.

(** So it is with the rounded ratio itself. *)
Lemma side_fills (b a : N) :
  b <> 0%N -> unsignedLong a ->
  round (double (num b * double (num a / num b))) = Z.of_N a.
Proof.
  intros Hb Ha.
  destruct (double_error (ratio_nonneg a Hb)) as [D1 D2].
  apply side_hits; assumption.
Qed.

(** A rounded side is within half a pixel, and the two relative errors,
    of the ideal one. *)
Lemma side_near (b a : N) (q s : Q) :
  b <> 0%N -> unsignedLong a ->
  0 <= q -> q <= num a / num b ->
  q * (1 - eps) <= s -> s <= q * (1 + eps) ->
  Qabs (inject_Z (round (double (num b * s))) - num b * q)
    <= (1 # 2) + (1 # 524288).
Proof.
  intros Hb Ha Hq0 Hq Hs1 Hs2.
  assert (0 <= s) as Hs0 by (unfold eps in *; lra).
  destruct (product_upper (num_pos Hb) Hs0 Hs2) as [_ P2].
  pose proof (product_lower (num_pos Hb) Hq0 Hs1) as P1.
  assert (num b * q <= num a) as Hbq.
  { rewrite <- (ratio_times a Hb). apply Qmult_le_l; [apply num_pos, Hb|exact Hq]. }
  assert (0 <= num b * q) as Hbq0
    by (apply Qmult_le_0_compat; [apply Qlt_le_weak, num_pos, Hb|exact Hq0]).
  pose proof (num_bound Ha) as Hn.
  destruct (round_bounds (double (num b * s))) as [R1 R2].
  apply Qabs_Qle_condition. unfold eps in *. split; lra.
Qed.

Section Letterbox.

Variables sw sh cw ch : N.
Hypothesis Hsw : sw <> 0%N.
Hypothesis Hsh : sh <> 0%N.
Hypothesis Hcw : unsignedLong cw.
Hypothesis Hch : unsignedLong ch.

Lemma destW_range : (0 <= destW sw sh cw ch <= Z.of_N cw)%Z.
Proof.
  unfold destW. apply side_fits; try assumption.
  - apply scale_nonneg; assumption.
  - apply scale_le_width; assumption.
Qed.

Lemma destH_range : (0 <= destH sw sh cw ch <= Z.of_N ch)%Z.
Proof.
  unfold destH. apply side_fits; try assumption.
  - apply scale_nonneg; assumption.
  - apply scale_le_height; assumption.
Qed.

Lemma dx_range :
  (0 <= dx sw sh cw ch /\ dx sw sh cw ch + destW sw sh cw ch <= Z.of_N cw)%Z.
Proof.
  pose proof destW_range as Hw. unfold dx.
  pose proof (@round_half (Z.of_N cw - destW sw sh cw ch)) as H. lia.
Qed.

Lemma dy_range :
  (0 <= dy sw sh cw ch /\ dy sw sh cw ch + destH sw sh cw ch <= Z.of_N ch)%Z.
Proof.
  pose proof destH_range as Hh. unfold dy.
  pose proof (@round_half (Z.of_N ch - destH sw sh cw ch)) as H. lia.
Qed.

Lemma destW_near :
  Qabs (inject_Z (destW sw sh cw ch) - num sw * idealScale sw sh cw ch)
    <= (1 # 2) + (1 # 524288).
Proof.
  unfold destW. destruct (@scale_near sw sh cw ch Hsw Hsh) as [S1 S2].
  apply side_near with (a := cw); try assumption.
  - apply idealScale_nonneg; assumption.
  - apply Q.le_min_l.
Qed.

Lemma destH_near :
  Qabs (inject_Z (destH sw sh cw ch) - num sh * idealScale sw sh cw ch)
    <= (1 # 2) + (1 # 524288).
Proof.
  unfold destH. destruct (@scale_near sw sh cw ch Hsw Hsh) as [S1 S2].
  apply side_near with (a := ch); try assumption.
  - apply idealScale_nonneg; assumption.
  - apply Q.le_min_r.
Qed.

End Letterbox.

(** ** The model against the machine *)

(** The three cases where exact arithmetic and doubles part: a 6x27
    source on a 13x59 canvas, 1280x720 on 56x150, and 49x98 on 1x1. *)
Example doubles_round_down :
  (destH 6 27 13 59, destH 1280 720 56 150, destW 49 98 1 1) = (58, 31, 0)%Z /\
  (round (num 27 * idealScale 6 27 13 59),
   round (num 720 * idealScale 1280 720 56 150),
   round (num 49 * idealScale 49 98 1 1)) = (59, 32, 1)%Z.
Proof. split; vm_compute; reflexivity. Qed.

(** On a grid of sizes the model gives the scale, the width and the
    height that the binary64 arithmetic of the machine gives. *)
Example double_is_binary64 : Binary64.agreesOnAll = true.
Proof. vm_compute. reflexivity. Qed.

(** ** Rendering *)

Local Open Scope Z_scope.

(** A 1920x800 frame on a 1280x720 canvas: bars above and below, the
    half pixel of the offset rounded up. *)
Example letterbox_wide :
  (destW 1920 800 1280 720, destH 1920 800 1280 720,
   dx 1920 800 1280 720, dy 1920 800 1280 720) = (1280, 533, 0, 94).
Proof. vm_compute. reflexivity. Qed.

(** A tall sliver on a flat canvas is drawn with no width at all. *)
Example letterbox_sliver :
  (destW 1 1000 100 1, destH 1 1000 100 1) = (0, 1).
Proof. vm_compute. reflexivity. Qed.

Lemma render_guard (r : Canvas2DRenderer) (source : Canvas) :
  isInitialized r = false \/ ctx r = None \/
  width source = 0%N \/ height source = 0%N \/
  width (canvas r) = 0%N \/ height (canvas r) = 0%N ->
  render r source = (r, false).
Proof.
  unfold render, isReady.
  intros [H | [H | [H | [H | [H | H]]]]]; rewrite H; try reflexivity;
    destruct (ctx r); try reflexivity;
    destruct (isInitialized r); try reflexivity; simpl;
    repeat match goal with
           | |- context [(?n =? 0)%N] => destruct (n =? 0)%N; simpl
           end; reflexivity.
Qed.

Lemma render_true_inv (r : Canvas2DRenderer) (source : Canvas) :
  snd (render r source) = true ->
  exists c,
    ctx r = Some c /\
    isInitialized r = true /\
    width source <> 0%N /\ height source <> 0%N /\
    width (canvas r) <> 0%N /\ height (canvas r) <> 0%N /\
    paintedBy (fst (render r source)) = painted c ++ frameOps r source.
Proof.
  unfold render, isReady, frameOps, fillRect, drawImage, issue, paintedBy.
  destruct (ctx r) as [c|]; [|discriminate].
  destruct (isInitialized r); [|discriminate]. simpl.
  destruct (N.eqb_spec (width source) 0); [discriminate|].
  destruct (N.eqb_spec (height source) 0); [discriminate|].
  destruct (N.eqb_spec (width (canvas r)) 0); [discriminate|].
  destruct (N.eqb_spec (height (canvas r)) 0); [discriminate|]. simpl.
  repeat match goal with
         | |- context [if throws ?k ?op then _ else _] =>
           destruct (throws k op); simpl; [discriminate|]
         end.
  intros _. exists c. rewrite <- app_assoc. simpl. repeat split; assumption.
Qed.

Lemma render_caught (r : Canvas2DRenderer) (source : Canvas) (c : Context2D) :
  ctx r = Some c ->
  (exists op, In op (frameOps r source) /\ throws c op = true) ->
  snd (render r source) = false.
Proof.
  intros Hc [op [Hin Hop]].
  destruct (snd (render r source)) eqn:Hr; [|reflexivity].
  exfalso. revert Hr.
  unfold render, isReady, fillRect, drawImage, issue. rewrite Hc.
  destruct (isInitialized r); [|discriminate]. simpl.
  destruct (N.eqb_spec (width source) 0); [discriminate|].
  destruct (N.eqb_spec (height source) 0); [discriminate|].
  destruct (N.eqb_spec (width (canvas r)) 0); [discriminate|].
  destruct (N.eqb_spec (height (canvas r)) 0); [discriminate|]. simpl.
  destruct Hin as [<- | [<- | []]]; rewrite ?Hop; simpl; try discriminate.
  destruct (throws c (FillRect _ _ _ _ _)); simpl; [discriminate|].
  rewrite Hop. discriminate.
Qed.

Lemma render_unready (options : Canvas2DRendererOptions) (source : Canvas) :
  (forall c, getContext (options_canvas options) <> ContextOk c) ->
  render (constructor options) source = (constructor options, false).
Proof.
  intros H. apply render_guard. left.
  unfold constructor, initialize. simpl.
  destruct (getContext (options_canvas options)) as [| |c]; try reflexivity.
  elim (H c). reflexivity.
Qed.

(** C9: [render] always returns a boolean.  It returns [false] and leaves
    the renderer, hence the canvas, as it was when the renderer is not
    initialized, has no context, or the source or the destination has a
    zero width or height; so it does after [dispose] and when the
    constructor got no context.  An exception of the context is caught and
    gives [false].  It returns [true] only when the black fill and the
    [drawImage] of the frame were both issued on the context and returned;
    the frame then covers pixels exactly when neither side of the
    destination rectangle was rounded to 0. *)
Theorem render_total_and_guarded (r : Canvas2DRenderer) (source : Canvas) :
  (exists r' b, render r source = (r', b)) /\
  (isInitialized r = false \/ ctx r = None \/
   width source = 0%N \/ height source = 0%N \/
   width (canvas r) = 0%N \/ height (canvas r) = 0%N ->
   render r source = (r, false)) /\
  render (dispose r) source = (dispose r, false) /\
  (forall options,
     (forall c, getContext (options_canvas options) <> ContextOk c) ->
     render (constructor options) source = (constructor options, false)) /\
  (forall c, ctx r = Some c ->
     (exists op, In op (frameOps r source) /\ throws c op = true) ->
     snd (render r source) = false) /\
  (snd (render r source) = true ->
   exists c, ctx r = Some c /\
     paintedBy (fst (render r source)) = painted c ++ frameOps r source /\
     (existsb drawsFrame (frameOps r source) = true <->
      0 < destW (width source) (height source)
                (width (canvas r)) (height (canvas r)) /\
      0 < destH (width source) (height source)
                (width (canvas r)) (height (canvas r)))).
Proof.
  split; [|split; [|split; [|split; [|split]]]].
  - destruct (render r source) as [r' b]. exists r', b. reflexivity.
  - apply render_guard.
  - apply render_guard. left. reflexivity.
  - intros options. apply render_unready.
  - intros c. apply render_caught.
  - intros H. destruct (render_true_inv r source H) as [c [Hc Hrest]].
    exists c. split; [assumption|]. split; [apply Hrest|].
    unfold frameOps. cbn [existsb drawsFrame coversPixels orb].
    rewrite orb_false_r, andb_true_iff, !Z.ltb_lt. reflexivity.
Qed.


Lemma render_total_and_guarded_witness :
  render (dispose onScreen) frame = (dispose onScreen, false) /\
  render (constructor {| options_canvas := headless |}) frame
    = (constructor {| options_canvas := headless |}, false) /\
  paintedBy (fst (render onScreen frame))
    = [FillRect "black" 0 0 1920 1080;
       DrawImage 640 480 0 0 640 480 240 0 1440 1080].
Proof.
  destruct (render_total_and_guarded onScreen frame)
    as [_ [_ [Hd [Hc [_ Ht]]]]].
  split; [exact Hd|]. split.
  - apply Hc. intros c. discriminate.
  - destruct (Ht eq_refl) as [c [Hctx [Hp _]]].
    rewrite Hp. injection Hctx as <-. vm_compute. reflexivity.
Defined.


(** A frame one pixel wide and 5000 high on the 1920x1080 canvas:
    [render] returns [true], and the [drawImage] it issued has a
    destination of width 0, so no pixel of the frame was drawn. *)
Lemma render_true_nothing_drawn :
  snd (render onScreen sliver) = true /\
  paintedBy (fst (render onScreen sliver))
    = [FillRect "black" 0 0 1920 1080;
       DrawImage 1 5000 0 0 1 5000 960 0 0 1080] /\
  existsb drawsFrame (paintedBy (fst (render onScreen sliver))) = false.
Proof. vm_compute. repeat split. Qed.

End Canvas2DFacts.

(* ===================================================================== *)
(** * Properties of PlayerCore *)
(* ===================================================================== *)

Module PlayerFacts.

Import Player.

(** Unfolds the monad down to the calls on the collaborators. *)
Ltac unfold_monad :=
  unfold handleError, try_catch, bind, ret, throw, update, getState, emit,
    logger_error, call, read in *.

(** Splits on the outcome of the next collaborator call, or on the next
    value a branch of the code tests: the innermost scrutinee that is
    stuck. *)
Ltac stuck t :=
  lazymatch t with
  | context [match _ with _ => _ end] => fail
  | _ => idtac
  end.

Ltac step :=
  match goal with
  | H : context [match ?t with _ => _ end] |- _ =>
    stuck t; destruct t eqn:?; simpl in *
  | |- context [match ?t with _ => _ end] =>
    stuck t; destruct t eqn:?; simpl in *
  end.

Ltac steps := simpl in *; repeat (try discriminate; step); try discriminate.

(** Closes the goals that a snapshot shows the media info and the tracks of
    the state before. *)
Ltac same_media :=
  unfold sameMedia; simpl; repeat split; repeat constructor; reflexivity.

(** Closes the goals that a snapshot shows media of a load. *)
Ltac show_one :=
  unfold showsMediaOf, showsNoMedia; simpl;
  first [left; split; reflexivity
        |right; eexists; eexists;
         split; [reflexivity|];
         split; [reflexivity|];
         first [left; reflexivity|right; reflexivity]].

Ltac shows_media :=
  simpl;
  split;
  [repeat (apply Forall_cons; [show_one|]); apply Forall_nil
  |show_one].

(** ** Strings *)

Example trim_both_ends : trim "  Unsupported codec
" = "Unsupported codec"%string.
Proof. vm_compute. reflexivity. Qed.

(** A no-break space (U+00A0, the bytes 194 160) and a byte order mark
    (U+FEFF, the bytes 239 187 191) are stripped like a blank. *)
Example trim_unicode_space :
  trim (bytes [194; 160]%N ++ "codec" ++ bytes [239; 187; 191]%N ++ " ")%string
  = "codec"%string.
Proof. vm_compute. reflexivity. Qed.

(** The byte 160 alone is no white space: the letter U+00E0 (the bytes
    195 160) stays at either end, and so does a blank inside. *)
Example trim_keeps_letters :
  trim (" " ++ bytes [195; 160]%N ++ " a " ++ bytes [195; 160]%N ++ " ")%string
  = (bytes [195; 160]%N ++ " a " ++ bytes [195; 160]%N)%string.
Proof. vm_compute. reflexivity. Qed.

(** ** Promise.all *)

(** [Promise.all] resolves exactly when the four calls resolve, with
    their values in the order of the array; it rejects with one of their
    rejections. *)
Lemma promiseAll4_outcome (X A B C D : Type) (first : X -> nat)
    (a : X -> X * Result A) (b : X -> X * Result B)
    (c : X -> X * Result C) (d : X -> X * Result D) (x : X) :
  let ra := snd (a x) in
  let rb := snd (b (fst (a x))) in
  let rc := snd (c (fst (b (fst (a x))))) in
  let rd := snd (d (fst (c (fst (b (fst (a x))))))) in
  let x4 := fst (d (fst (c (fst (b (fst (a x))))))) in
  fst (promiseAll4 first a b c d x) = x4 /\
  match snd (promiseAll4 first a b c d x) with
  | Ok (va, vb, vc, vd) => ra = Ok va /\ rb = Ok vb /\ rc = Ok vc /\ rd = Ok vd
  | Throw e =>
    exists e0 later,
      rejection ra ++ rejection rb ++ rejection rc ++ rejection rd = e0 :: later /\
      e = nth (first x4) (e0 :: later) e0
  end.
Proof.
  unfold promiseAll4.
  destruct (a x) as [x1 ra]. simpl.
  destruct (b x1) as [x2 rb]. simpl.
  destruct (c x2) as [x3 rc]. simpl.
  destruct (d x3) as [x4 rd]. simpl.
  split; [reflexivity|].
  destruct ra as [va|ea]; simpl; [|eauto].
  destruct rb as [vb|eb]; simpl; [|eauto].
  destruct rc as [vc|ec]; simpl; [|eauto].
  destruct rd as [vd|ed]; simpl; [auto|].
  exists ed, []. split; [reflexivity|].
  destruct (first x4) as [|[|n]]; reflexivity.
Qed.

Section Transport.

Variables X MediaSource Input : Type.
Variable deps : PlayerCoreDeps X MediaSource Input.

(** C2: while the lifecycle state is [idle], [play] and [seek] reject with
    "No media loaded"; the rejected call leaves [isPlaying] and
    [currentTime] as they were and does not reach the controller. *)
Theorem idle_play_seek_reject (w : World X) (time : Q) :
  state (facade w) = state_idle ->
  (outcome (play deps w) = Throw {| message := "No media loaded" |} /\
   isPlaying (facade (final (play deps w))) = isPlaying (facade w) /\
   currentTime (facade (final (play deps w))) = currentTime (facade w) /\
   pipeline (final (play deps w)) = pipeline w) /\
  (outcome (seek deps time w) = Throw {| message := "No media loaded" |} /\
   isPlaying (facade (final (seek deps time w))) = isPlaying (facade w) /\
   currentTime (facade (final (seek deps time w))) = currentTime (facade w) /\
   pipeline (final (seek deps time w)) = pipeline w).
Proof.
  intros H. unfold play, seek. unfold_monad. simpl. rewrite H. simpl.
  repeat split.
Qed.

(** ** pause *)

Lemma pause_returns (w : World X) (x : X) :
  playbackController_pause deps (pipeline w) = (x, Ok tt) ->
  pause deps w =
    {| final := {| facade := StateFacade.updatePlaybackState false (facade w);
                   pipeline := x |};
       emitted := [Notify (StateFacade.updatePlaybackState false (facade w));
                   Emit ev_pause];
       outcome := Ok tt |}.
Proof.
  intros H. unfold pause. unfold_monad. rewrite H. reflexivity.
Qed.

Lemma pause_throws (w : World X) (x : X) (e : Error) :
  playbackController_pause deps (pipeline w) = (x, Throw e) ->
  pause deps w =
    {| final := {| facade := facade w; pipeline := x |};
       emitted := [];
       outcome := Throw e |}.
Proof.
  intros H. unfold pause. unfold_monad. rewrite H. reflexivity.
Qed.

(** C5, as the code has it: [pause] hands the call to the controller.  When
    the controller's [pause] returns, [pause] sets [isPlaying] to [false],
    emits exactly one event, [pause], records no error and returns.  When
    the controller's [pause] throws, the error reaches the caller of
    [pause] as it is: the state is not touched and nothing is emitted. *)
Theorem pause_delegates (w : World X) :
  (forall x,
     playbackController_pause deps (pipeline w) = (x, Ok tt) ->
     outcome (pause deps w) = Ok tt /\
     pipeline (final (pause deps w)) = x /\
     isPlaying (facade (final (pause deps w))) = false /\
     events (emitted (pause deps w)) = [ev_pause] /\
     error (facade (final (pause deps w))) = error (facade w) /\
     state (facade (final (pause deps w))) = state (facade w)) /\
  (forall x e,
     playbackController_pause deps (pipeline w) = (x, Throw e) ->
     outcome (pause deps w) = Throw e /\
     pipeline (final (pause deps w)) = x /\
     facade (final (pause deps w)) = facade w /\
     emitted (pause deps w) = []).
Proof.
  split.
  - intros x H. rewrite (pause_returns w H). simpl. repeat split.
  - intros x e H. rewrite (pause_throws w H). simpl. repeat split.
Qed.

(** ** seek *)

(** C6: a [seek] that fails, on the idle check, in the controller's
    [seek] or in one of the two reads of the position, ends with these
    four observations, in this order: the snapshot in which the seeking
    flag is cleared and the error is not yet recorded, the snapshot that
    records the error, the [error] event, the log line.  Before them come
    nothing (the idle check), the [seeking] announcement (the controller's
    [seek] failed), or that and the snapshots the call had reached when a
    read of the position failed; the state left behind does not show the
    flag. *)
Theorem failed_seek_clears_flag (w : World X) (time : Q) (e : Error) :
  outcome (seek deps time w) = Throw e ->
  exists before cleared,
    emitted (seek deps time w) =
      before ++ [Notify cleared;
                 Notify (StateFacade.updateError e cleared);
                 Emit (ev_error e);
                 LogError "Player error:" e] /\
    (let seeking := StateFacade.updateSeekingState true (facade w) in
     let sought := StateFacade.updateSeekingState false seeking in
     before = [] \/
     before = [Notify seeking; Emit (ev_seeking time)] \/
     before = [Notify seeking; Emit (ev_seeking time); Notify sought] \/
     exists t,
       before = [Notify seeking; Emit (ev_seeking time); Notify sought;
                 Notify (StateFacade.updateTime t sought)]) /\
    StateFacade.seekingFlag cleared = false /\
    error cleared = error (facade w) /\
    facade (final (seek deps time w)) = StateFacade.updateError e cleared /\
    StateFacade.seekingFlag (facade (final (seek deps time w))) = false.
Proof.
  unfold seek. unfold_monad. simpl.
  destruct (state (facade w)) eqn:Hs; simpl.
  1: { intros H. injection H as <-.
       exists [], (StateFacade.updateSeekingState false (facade w)).
       unfold StateFacade.seekingFlag. simpl. rewrite Hs.
       repeat split; auto. }
  all: destruct (playbackController_seek deps time (pipeline w))
         as [x [[]|e']] eqn:Hc; simpl;
       [destruct (playbackController_getCurrentTime deps x)
          as [x' [t|e']] eqn:Hr; simpl;
        [destruct (playbackController_getCurrentTime deps x')
           as [x'' [t'|e']] eqn:Hr'; simpl|]
       |];
       intros H; try discriminate; injection H as <-;
       first
         [eexists (_ :: _ :: _ :: _ :: nil), _; split; [reflexivity|];
          repeat split; auto; right; right; right; eexists; reflexivity
         |eexists (_ :: _ :: _ :: nil), _; split; [reflexivity|];
          repeat split; auto
         |eexists (_ :: _ :: nil), _; split; [reflexivity|];
          repeat split; auto].
Qed.

(** C7, as the code has it: a [seek] that succeeds has called the
    controller's [seek] and then [getCurrentTime] twice.  The first read
    is what [currentTime] in the state becomes; the subscribers are
    notified of it; the second read, made after that, is the payload of
    the one [seeked] event.  Neither needs to be the time asked for, and
    the two agree whenever the second read returns what the first did. *)
Theorem seek_reports_controller_time (w : World X) (time : Q) :
  outcome (seek deps time w) = Ok tt ->
  exists x1 x2 x3 t t',
    playbackController_seek deps time (pipeline w) = (x1, Ok tt) /\
    playbackController_getCurrentTime deps x1 = (x2, Ok t) /\
    playbackController_getCurrentTime deps x2 = (x3, Ok t') /\
    pipeline (final (seek deps time w)) = x3 /\
    currentTime (facade (final (seek deps time w))) = t /\
    events (emitted (seek deps time w)) = [ev_seeking time; ev_seeked t'] /\
    (exists before,
       emitted (seek deps time w)
         = before ++ [Notify (facade (final (seek deps time w)));
                      Emit (ev_seeked t')]) /\
    (snd (playbackController_getCurrentTime deps x2)
       = snd (playbackController_getCurrentTime deps x1) ->
     t' = t).
Proof.
  unfold seek. unfold_monad. simpl.
  destruct (state (facade w)) eqn:Hs; simpl; try discriminate;
    destruct (playbackController_seek deps time (pipeline w))
      as [x1 [[]|e']] eqn:Hc; simpl; try discriminate;
    destruct (playbackController_getCurrentTime deps x1)
      as [x2 [t|e']] eqn:Hr; simpl; try discriminate;
    destruct (playbackController_getCurrentTime deps x2)
      as [x3 [t'|e']] eqn:Hr'; simpl; try discriminate;
    intros _; exists x1, x2, x3, t, t'; rewrite Hr, Hr'; simpl;
    (repeat split; try reflexivity;
     [eexists (_ :: _ :: _ :: nil); reflexivity|congruence]).
Qed.

(** ** stop *)

(** C8, as the code has it: a [stop] that succeeds leaves [isPlaying]
    false and [currentTime] at the position the controller reports when
    it is first read after its [seek 0], which is 0 whenever the
    controller lands on the time it was asked for.  An error of the
    [pause] step or of the [seek 0] step is the error [stop] rejects
    with. *)
Theorem stop_result (w : World X) :
  (outcome (stop deps w) = Ok tt ->
   let sought :=
     fst (playbackController_seek deps 0
            (fst (playbackController_pause deps (pipeline w)))) in
   let firstRead := playbackController_getCurrentTime deps sought in
   isPlaying (facade (final (stop deps w))) = false /\
   pipeline (final (stop deps w))
     = fst (playbackController_getCurrentTime deps (fst firstRead)) /\
   snd firstRead = Ok (currentTime (facade (final (stop deps w)))) /\
   (snd firstRead = Ok 0 ->
    currentTime (facade (final (stop deps w))) = 0)) /\
  (forall e,
     outcome (pause deps w) = Throw e ->
     outcome (stop deps w) = Throw e) /\
  (forall e,
     outcome (pause deps w) = Ok tt ->
     outcome (seek deps 0 (final (pause deps w))) = Throw e ->
     outcome (stop deps w) = Throw e).
Proof.
  unfold stop, pause, seek. unfold_monad. simpl.
  destruct (playbackController_pause deps (pipeline w)) as [x1 [[]|e1]] eqn:Hp;
    simpl.
  - destruct (state (facade w)) eqn:Hs; simpl;
      try (destruct (playbackController_seek deps 0 x1) as [x2 [[]|e2]] eqn:Hk;
           simpl;
           [destruct (playbackController_getCurrentTime deps x2)
              as [x3 [t|e3]] eqn:Hr; simpl;
            [destruct (playbackController_getCurrentTime deps x3)
               as [x4 [t'|e4]] eqn:Hr'; simpl|]
           |]);
      (split; [intros H; try discriminate; repeat split; auto; congruence
              |split; intros e H; try discriminate;
               try (intros H'; injection H' as <-); reflexivity]).
  - split; [discriminate|]. split; intros e H; try discriminate.
    injection H as <-. reflexivity.
Qed.

End Transport.

Section Loading.

Variables X MediaSource Input : Type.
Variable deps : PlayerCoreDeps X MediaSource Input.

(** C3: the events of a [load] that succeeds, restricted to the five load
    events and [error], are exactly [loadstart], [loadedmetadata],
    [loadeddata], [canplay], [canplaythrough], in this order;
    [loadedmetadata] carries the media info the load committed. *)
Theorem load_event_order (source : MediaSource) (options : LoadOptions)
    (w : World X) :
  outcome (load deps source options w) = Ok tt ->
  exists info,
    mediaInfo (facade (final (load deps source options w))) = Some info /\
    filter loadOrError (events (emitted (load deps source options w)))
      = [ev_loadstart; ev_loadedmetadata info; ev_loadeddata;
         ev_canplay; ev_canplaythrough].
Proof.
  unfold load, play, seek. unfold_monad. intros H.
  steps; eexists; split; reflexivity.
Qed.

(** C1: a [load] that gets its input, its tracks and its metadata, and in
    which the track switcher reports neither video nor audio supported (or
    is not asked, both primary tracks being absent), rejects with the
    switcher's warning text when that is not empty and with "No audio or
    video track found." otherwise.  The state is then [error] with that
    error, it still shows the media info this load committed, and
    [isPlaying] was false in every snapshot of the load. *)
Theorem load_no_playable_track (source : MediaSource) (options : LoadOptions)
    (w : World X) (input : Input) (x1 x2 x3 x4 x5 : X)
    (d : Q) (f : InputFormat) (m : string) (tags : list (string * string))
    (report : TrackSwitchResult) :
  sourceManager_createSource deps source (pipeline w)
    = (x1, Ok {| Player.input := Some input |}) ->
  trackManager_initialize deps input x1 = (x2, Ok tt) ->
  promiseAll4 (settlesFirst deps)
              (input_computeDuration deps input) (input_getFormat deps input)
              (input_getMimeType deps input) (input_getMetadataTags deps input) x2
    = (x3, Ok (d, f, m, tags)) ->
  playbackController_setDuration deps d x3 = (x4, Ok tt) ->
  (trackManager_getPrimaryVideoTrack deps x4 = None /\
   trackManager_getPrimaryAudioTrack deps x4 = None /\
   report = {| warningMessage := ""; videoSupported := false;
               audioSupported := false |} /\
   x5 = x4
   \/
   (trackManager_getPrimaryVideoTrack deps x4 <> None \/
    trackManager_getPrimaryAudioTrack deps x4 <> None) /\
   trackSwitcher_setupInitialTracks deps
     (trackManager_getPrimaryVideoTrack deps x4)
     (trackManager_getPrimaryAudioTrack deps x4) x4 = (x5, Ok report)) ->
  videoSupported report = false ->
  audioSupported report = false ->
  let failure :=
    {| message := if truthy (warningMessage report) then warningMessage report
                  else "No audio or video track found." |} in
  let info :=
    {| mediaDuration := d; format := name f; mimeType := m; metadata := tags;
       hasVideo := trackManager_hasVideo deps x3;
       hasAudio := trackManager_hasAudio deps x3;
       hasSubtitles := trackManager_hasSubtitles deps x3 |} in
  outcome (load deps source options w) = Throw failure /\
  state (facade (final (load deps source options w))) = state_error /\
  error (facade (final (load deps source options w))) = Some failure /\
  mediaInfo (facade (final (load deps source options w))) = Some info /\
  isPlaying (facade (final (load deps source options w))) = false /\
  Forall (fun s => isPlaying s = false)
         (snapshots (emitted (load deps source options w))) /\
  events (emitted (load deps source options w))
    = [ev_loadstart; ev_error failure].
Proof.
  intros Hsrc Hinit Hmeta Hdur Hsw Hv Ha failure info.
  subst failure info.
  unfold load. unfold_monad. simpl.
  rewrite Hsrc. simpl. rewrite Hinit. simpl. rewrite Hmeta. simpl.
  rewrite Hdur. simpl.
  destruct Hsw as [(Hpv & Hpa & -> & ->) | (Hsome & Hcall)].
  - rewrite Hpv, Hpa. simpl.
    repeat split; repeat constructor.
  - destruct (trackManager_getPrimaryVideoTrack deps x4) as [v|] eqn:Hpv,
             (trackManager_getPrimaryAudioTrack deps x4) as [a|] eqn:Hpa;
      simpl; try (destruct Hsome as [H | H]; elim H; reflexivity);
      rewrite Hcall; simpl; rewrite Hv, Ha; simpl;
      repeat split; repeat constructor.
Qed.

End Loading.

Section Sessions.

Variables X MediaSource Input : Type.
Variable deps : PlayerCoreDeps X MediaSource Input.

Lemma snapshots_app (l1 l2 : list Action) :
  snapshots (l1 ++ l2) = snapshots l1 ++ snapshots l2.
Proof.
  induction l1 as [|a l1 IH]; simpl; [reflexivity|].
  destruct a; simpl; rewrite IH; reflexivity.
Qed.

Lemma showsMediaOf_sameMedia (m : option (MediaInfo * Tracks))
    (s s' : PlayerState) :
  showsMediaOf m s -> sameMedia s s' -> showsMediaOf m s'.
Proof.
  unfold showsMediaOf, showsNoMedia, sameMedia. intros H [-> ->]. exact H.
Qed.

(** The transport calls change neither the media info nor the tracks. *)
Lemma play_sameMedia (w : World X) :
  Forall (sameMedia (facade w)) (snapshots (emitted (play deps w))) /\
  sameMedia (facade w) (facade (final (play deps w))).
Proof.
  unfold play. unfold_monad. steps; same_media.
Qed.

Lemma pause_sameMedia (w : World X) :
  Forall (sameMedia (facade w)) (snapshots (emitted (pause deps w))) /\
  sameMedia (facade w) (facade (final (pause deps w))).
Proof.
  unfold pause. unfold_monad. steps; same_media.
Qed.

Lemma seek_sameMedia (w : World X) (time : Q) :
  Forall (sameMedia (facade w)) (snapshots (emitted (seek deps time w))) /\
  sameMedia (facade w) (facade (final (seek deps time w))).
Proof.
  unfold seek. unfold_monad. steps; same_media.
Qed.

Lemma stop_sameMedia (w : World X) :
  Forall (sameMedia (facade w)) (snapshots (emitted (stop deps w))) /\
  sameMedia (facade w) (facade (final (stop deps w))).
Proof.
  unfold stop, pause, seek. unfold_monad. steps; same_media.
Qed.

(** A [load] starts from [reset]: whatever the player showed before, what
    it shows during the load and after it is media of this load. *)
Lemma load_shows (source : MediaSource) (options : LoadOptions) (w : World X) :
  Forall (showsMediaOf (loadMedia deps source (pipeline w)))
         (snapshots (emitted (load deps source options w))) /\
  showsMediaOf (loadMedia deps source (pipeline w))
               (facade (final (load deps source options w))).
Proof.
  unfold loadMedia, load, play, seek. unfold_monad. steps; shows_media.
Qed.

(** A load that fails before it has its media shows none. *)
Lemma load_shows_nothing (source : MediaSource) (options : LoadOptions)
    (w : World X) :
  loadMedia deps source (pipeline w) = None ->
  Forall showsNoMedia (snapshots (emitted (load deps source options w))).
Proof.
  unfold loadMedia, load, play, seek. unfold_monad. intros H.
  steps; repeat (apply Forall_cons; [split; reflexivity|]); apply Forall_nil.
Qed.

(** A load that gets its media writes the media info and the tracks back
    to back: one snapshot shows the media info over the tracks [reset]
    left, the very next observation is the snapshot with the tracks, and
    from then on every snapshot shows both. *)
Lemma load_writes_together (source : MediaSource) (options : LoadOptions)
    (w : World X) (info : MediaInfo) (loaded : Tracks) :
  loadMedia deps source (pipeline w) = Some (info, loaded) ->
  exists before half full after,
    emitted (load deps source options w)
      = before ++ Notify half :: Notify full :: after /\
    Forall showsNoMedia (snapshots before) /\
    mediaInfo half = Some info /\ tracks half = noTracks /\
    Forall (fun s => mediaInfo s = Some info /\ tracks s = loaded)
           (full :: snapshots after).
Proof.
  unfold loadMedia, load, play, seek. unfold_monad. intros H.
  steps; injection H as <- <-;
    eexists (_ :: _ :: _ :: _ :: nil), _, _, _;
    (split; [reflexivity|]);
    (split; [repeat (apply Forall_cons; [split; reflexivity|]); apply Forall_nil|]);
    (split; [reflexivity|]); (split; [reflexivity|]);
    simpl; repeat (apply Forall_cons; [split; reflexivity|]); apply Forall_nil.
Qed.

Lemma invoke_shows (c : Call MediaSource) (w : World X)
    (current : option (MediaInfo * Tracks)) :
  showsMediaOf current (facade w) ->
  Forall (showsMediaOf (loadOf deps c w current))
         (snapshots (emitted (invoke deps c w))) /\
  showsMediaOf (loadOf deps c w current) (facade (final (invoke deps c w))).
Proof.
  intros Hw.
  assert (forall l s,
            Forall (sameMedia (facade w)) l /\ sameMedia (facade w) s ->
            Forall (showsMediaOf current) l /\ showsMediaOf current s) as Hsame.
  { intros l s [Hl Hs]. split.
    - eapply Forall_impl; [|exact Hl].
      intros s'. apply showsMediaOf_sameMedia. exact Hw.
    - eapply showsMediaOf_sameMedia; eassumption. }
  destruct c as [source options| | |time|]; simpl.
  - apply load_shows.
  - apply Hsame, play_sameMedia.
  - apply Hsame, pause_sameMedia.
  - apply Hsame, seek_sameMedia.
  - apply Hsame, stop_sameMedia.
Qed.

Lemma attributed_snapshots (cs : list (Call MediaSource)) (w : World X)
    (current : option (MediaInfo * Tracks)) :
  map snd (attributed deps cs w current) = snapshots (snd (session deps cs w)).
Proof.
  revert w current. induction cs as [|c cs IH]; intros w current; simpl.
  - reflexivity.
  - rewrite map_app, map_map, IH. simpl. rewrite map_id.
    destruct (invoke deps c w) as [w1 l1 o1]. simpl.
    destruct (session deps cs w1) as [w' rest]. simpl.
    rewrite snapshots_app. reflexivity.
Qed.

Lemma attributed_shows (cs : list (Call MediaSource)) (w : World X)
    (current : option (MediaInfo * Tracks)) :
  showsMediaOf current (facade w) ->
  Forall (fun p => showsMediaOf (fst p) (snd p)) (attributed deps cs w current).
Proof.
  revert w current. induction cs as [|c cs IH]; intros w current Hw; simpl.
  - apply Forall_nil.
  - destruct (invoke_shows c w Hw) as [Hl Hf].
    apply Forall_app. split.
    + apply Forall_map. exact Hl.
    + apply IH. exact Hf.
Qed.


End Sessions.

(** ** The properties on the concrete pipeline *)

Import Fixture.

Local Open Scope string_scope.

Lemma load_no_playable_track_witness :
  (outcome (load (deps undecodable) "clip.mp4" noOptions (newPlayer idlePipeline))
     = Throw {| message := "Unsupported video codec: hev1" |} /\
   state (facade (loaded undecodable)) = state_error /\
   mediaInfo (facade (loaded undecodable))
     = Some {| mediaDuration := 60; format := "mp4"; mimeType := "video/mp4";
               metadata := [("title", "clip")]; hasVideo := true;
               hasAudio := false; hasSubtitles := false |} /\
   isPlaying (facade (loaded undecodable)) = false) /\
  (outcome (load (deps trackless) "clip.mp4" noOptions (newPlayer idlePipeline))
     = Throw {| message := "No audio or video track found." |} /\
   state (facade (loaded trackless)) = state_error).
Proof.
  split.
  - pose proof (@load_no_playable_track _ _ _ (deps undecodable) "clip.mp4"
                  noOptions (newPlayer idlePipeline) "clip.mp4"
                  idlePipeline
                  {| position := 0; running := false; opened := ([hevc], [], []) |}
                  {| position := 0; running := false; opened := ([hevc], [], []) |}
                  {| position := 0; running := false; opened := ([hevc], [], []) |}
                  {| position := 0; running := false; opened := ([hevc], [], []) |}
                  60 {| name := "mp4" |} "video/mp4" [("title", "clip")]
                  (cfg_switch undecodable)
                  eq_refl eq_refl eq_refl eq_refl) as H.
    destruct H as (H1 & H2 & _ & H4 & H5 & _).
    + right. split; [left; discriminate|reflexivity].
    + reflexivity.
    + reflexivity.
    + repeat split; assumption.
  - pose proof (@load_no_playable_track _ _ _ (deps trackless) "clip.mp4"
                  noOptions (newPlayer idlePipeline) "clip.mp4"
                  idlePipeline idlePipeline idlePipeline idlePipeline idlePipeline
                  60 {| name := "mp4" |} "video/mp4" [("title", "clip")]
                  (cfg_switch trackless)
                  eq_refl eq_refl eq_refl eq_refl) as H.
    destruct H as (H1 & H2 & _).
    + left. repeat split; reflexivity.
    + reflexivity.
    + reflexivity.
    + split; assumption.
Defined.

Lemma idle_play_seek_reject_witness :
  outcome (play (deps playable) (newPlayer idlePipeline))
    = Throw {| message := "No media loaded" |} /\
  outcome (seek (deps playable) 5 (newPlayer idlePipeline))
    = Throw {| message := "No media loaded" |} /\
  isPlaying (facade (final (seek (deps playable) 5 (newPlayer idlePipeline))))
    = false /\
  currentTime (facade (final (seek (deps playable) 5 (newPlayer idlePipeline))))
    = 0.
Proof.
  destruct (@idle_play_seek_reject _ _ _ (deps playable)
              (newPlayer idlePipeline) 5 eq_refl)
    as ((Hp & _) & (Hs & Hi & Ht & _)).
  repeat split; assumption.
Defined.

Lemma load_event_order_witness :
  filter loadOrError
    (events (emitted (load (deps playable) "clip.mp4"
                           {| autoplay := Some true; startTime := Some (103 # 10) |}
                           (newPlayer idlePipeline))))
  = [ev_loadstart;
     ev_loadedmetadata
       {| mediaDuration := 60; format := "mp4"; mimeType := "video/mp4";
          metadata := [("title", "clip")]; hasVideo := true;
          hasAudio := true; hasSubtitles := false |};
     ev_loadeddata; ev_canplay; ev_canplaythrough].
Proof.
  destruct (@load_event_order _ _ _ (deps playable) "clip.mp4"
              {| autoplay := Some true; startTime := Some (103 # 10) |}
              (newPlayer idlePipeline) eq_refl)
    as (info & Hinfo & Hev).
  rewrite Hev. vm_compute in Hinfo. injection Hinfo as <-. reflexivity.
Defined.

(** While the playable clip loads, one snapshot shows the media info of
    the load, with [hasVideo] and [hasAudio] set, over the three empty
    track sequences that the [reset] of this load left; the next one shows
    the tracks. *)
Example mediaInfo_before_tracks :
  map (fun s => (isSome (mediaInfo s), tracks s))
      (snapshots (emitted (load (deps playable) "clip.mp4" noOptions
                                (newPlayer idlePipeline))))
  = [(false, noTracks); (false, noTracks); (false, noTracks);
     (true, noTracks);
     (true, ([h264], [aac], [])); (true, ([h264], [aac], []))].
Proof. vm_compute. reflexivity. Qed.

(** C5, as it is stated, fails: on a controller whose [pause] throws,
    [pause] throws too; the player goes on showing [isPlaying] and no
    [pause] event is emitted. *)
Lemma pause_can_throw :
  isPlaying (facade (final (play (deps brokenPause) (loaded brokenPause)))) = true /\
  outcome (pause (deps brokenPause)
             (final (play (deps brokenPause) (loaded brokenPause))))
    = Throw {| message := "Audio output is gone" |} /\
  isPlaying (facade (final (pause (deps brokenPause)
                              (final (play (deps brokenPause) (loaded brokenPause))))))
    = true /\
  emitted (pause (deps brokenPause)
             (final (play (deps brokenPause) (loaded brokenPause)))) = [].
Proof.
  repeat split.
Qed.

Lemma pause_delegates_witness :
  outcome (pause (deps playable) (final (play (deps playable) (loaded playable))))
    = Ok tt /\
  isPlaying (facade (final (pause (deps playable)
                              (final (play (deps playable) (loaded playable))))))
    = false /\
  events (emitted (pause (deps playable)
                     (final (play (deps playable) (loaded playable)))))
    = [ev_pause] /\
  outcome (pause (deps brokenPause) (loaded brokenPause))
    = Throw {| message := "Audio output is gone" |}.
Proof.
  destruct (@pause_delegates _ _ _ (deps playable)
              (final (play (deps playable) (loaded playable)))) as [Hok _].
  destruct (Hok _ eq_refl) as (H1 & _ & H3 & H4 & _).
  destruct (@pause_delegates _ _ _ (deps brokenPause) (loaded brokenPause))
    as [_ Hthrow].
  destruct (Hthrow _ _ eq_refl) as (H5 & _).
  repeat split; assumption.
Defined.

Lemma failed_seek_clears_flag_witness :
  exists before cleared,
    emitted (seek (deps brokenSeek) 5 (loaded brokenSeek))
      = (before ++ [Notify cleared;
                    Notify (StateFacade.updateError
                              {| message := "Seek failed" |} cleared);
                    Emit (ev_error {| message := "Seek failed" |});
                    LogError "Player error:" {| message := "Seek failed" |}])%list /\
    StateFacade.seekingFlag cleared = false /\
    StateFacade.seekingFlag
      (facade (final (seek (deps brokenSeek) 5 (loaded brokenSeek)))) = false.
Proof.
  destruct (@failed_seek_clears_flag _ _ _ (deps brokenSeek)
              (loaded brokenSeek) 5 {| message := "Seek failed" |} eq_refl)
    as (before & cleared & He & _ & Hc & _ & _ & Hf).
  exists before, cleared. repeat split; assumption.
Defined.

Lemma seek_reports_controller_time_witness :
  currentTime (facade (final (seek (deps playable) (103 # 10) (loaded playable))))
    = 10 /\
  events (emitted (seek (deps playable) (103 # 10) (loaded playable)))
    = [ev_seeking (103 # 10); ev_seeked 10].
Proof.
  destruct (@seek_reports_controller_time _ _ _ (deps playable)
              (loaded playable) (103 # 10) eq_refl)
    as (x1 & x2 & x3 & t & t' & Hk & Hr & Hr' & _ & Ht & He & _).
  vm_compute in Hk. injection Hk as <-.
  vm_compute in Hr. injection Hr as <- <-.
  vm_compute in Hr'. injection Hr' as _ <-.
  split; [exact Ht|exact He].
Defined.

(** C7, as it is stated, fails: while the clip plays, the position moves
    between the two reads.  A [seek] to 10.3 lands on the key frame at 10;
    the state gets 10, the first read, and the [seeked] event carries
    10.5, the second. *)
Lemma seeked_differs_from_state :
  outcome (play (deps playable) (loaded playable)) = Ok tt /\
  outcome (seek (deps playable) (103 # 10)
             (final (play (deps playable) (loaded playable)))) = Ok tt /\
  currentTime (facade (final (seek (deps playable) (103 # 10)
                                (final (play (deps playable) (loaded playable))))))
    = 10 /\
  events (emitted (seek (deps playable) (103 # 10)
                     (final (play (deps playable) (loaded playable)))))
    = [ev_seeking (103 # 10); ev_seeked (21 # 2)] /\
  ~ (21 # 2 == 10)%Q.
Proof.
  vm_compute. repeat split. discriminate.
Qed.

(** C8, as it is stated, fails: on a stream whose first frame is stamped
    half a second in, [stop] after a successful [load] succeeds and leaves
    [currentTime] at one half, the position the controller reports. *)
Lemma stop_off_zero :
  outcome (load (deps offsetStream) "clip.mp4" noOptions (newPlayer idlePipeline))
    = Ok tt /\
  state (facade (loaded offsetStream)) = state_ready /\
  outcome (stop (deps offsetStream) (loaded offsetStream)) = Ok tt /\
  currentTime (facade (final (stop (deps offsetStream) (loaded offsetStream))))
    = 1 # 2 /\
  ~ (currentTime (facade (final (stop (deps offsetStream) (loaded offsetStream))))
     == 0)%Q.
Proof.
  repeat split. vm_compute. discriminate.
Qed.

Lemma stop_result_witness :
  isPlaying (facade (final (stop (deps playable)
                              (final (play (deps playable) (loaded playable))))))
    = false /\
  currentTime (facade (final (stop (deps playable)
                                (final (play (deps playable) (loaded playable))))))
    = 0 /\
  outcome (stop (deps brokenPause) (loaded brokenPause))
    = Throw {| message := "Audio output is gone" |} /\
  outcome (stop (deps brokenSeek) (loaded brokenSeek))
    = Throw {| message := "Seek failed" |}.
Proof.
  destruct (@stop_result _ _ _ (deps playable)
              (final (play (deps playable) (loaded playable)))) as (Hok & _ & _).
  destruct (Hok eq_refl) as (H1 & _ & _ & H4).
  destruct (@stop_result _ _ _ (deps brokenPause) (loaded brokenPause))
    as (_ & Hp & _).
  destruct (@stop_result _ _ _ (deps brokenSeek) (loaded brokenSeek))
    as (_ & _ & Hs).
  split; [exact H1|]. split; [apply H4; reflexivity|].
  split; [apply Hp; reflexivity|apply Hs; reflexivity].
Defined.

End PlayerFacts.

(* ===================================================================== *)
(** * More on Canvas2DRenderer *)
(* ===================================================================== *)

Module Canvas2DMore.

Import Canvas2D Canvas2DFacts.
Local Open Scope Z_scope.

(** ** The life of a renderer *)

Lemma constructor_consistent (options : Canvas2DRendererOptions) :
  consistent (options_canvas options) (constructor options).
Proof.
  unfold consistent, constructor, initialize, isReady. simpl.
  destruct (getContext (options_canvas options)) as [| |c]; simpl;
    (split; [reflexivity|]); (split; [reflexivity|]);
    (split; [split; intros E; try discriminate; congruence|]);
    intros c' E; try discriminate; injection E as <-; split; reflexivity.
Qed.

(** A call that keeps the canvas, the flag, the presence of the context and
    its smoothing keeps the renderer consistent. *)
Lemma consistent_kept (target : Canvas) (r r' : Canvas2DRenderer) :
  consistent target r ->
  canvas r' = canvas r ->
  isInitialized r' = isInitialized r ->
  match ctx r, ctx r' with
  | None, None => True
  | Some c, Some c' =>
    imageSmoothingEnabled c' = imageSmoothingEnabled c /\
    imageSmoothingQuality c' = imageSmoothingQuality c
  | _, _ => False
  end ->
  consistent target r'.
Proof.
  unfold consistent, isReady. intros (Hc & Hr & Hi & Hs) Ec Ei Ex.
  rewrite Ec, Ei.
  destruct (ctx r) as [c|], (ctx r') as [c'|]; try contradiction.
  - destruct Ex as [Ee Eq]. destruct (Hs c eq_refl) as [He Hq].
    split; [assumption|]. split; [assumption|].
    split; [split; intros; [discriminate|apply Hi; discriminate]|].
    intros k E. injection E as <-. rewrite Ee, Eq. split; assumption.
  - split; [assumption|]. split; [assumption|].
    split; [exact Hi|]. intros k E. discriminate.
Qed.

Lemma render_consistent (target : Canvas) (r : Canvas2DRenderer) (source : Canvas) :
  consistent target r -> consistent target (fst (render r source)).
Proof.
  intros H. apply consistent_kept with (r := r); [exact H| | |];
    unfold render, fillRect, drawImage, issue;
    destruct (ctx r) as [c|] eqn:Hctx; simpl; rewrite ?Hctx; auto;
    repeat match goal with
           | |- context [if ?b then _ else _] => destruct b; simpl
           end; rewrite ?Hctx; auto.
Qed.

Lemma clear_consistent (target : Canvas) (r : Canvas2DRenderer) :
  consistent target r -> consistent target (fst (clear r)).
Proof.
  intros H. apply consistent_kept with (r := r); [exact H| | |];
    unfold clear, fillRect, issue;
    destruct (ctx r) as [c|] eqn:Hctx; simpl; rewrite ?Hctx; auto;
    repeat match goal with
           | |- context [if ?b then _ else _] => destruct b; simpl
           end; rewrite ?Hctx; auto.
Qed.

Lemma dispose_consistent (target : Canvas) (r : Canvas2DRenderer) :
  consistent target r -> consistent target (dispose r).
Proof.
  intros (Hc & _). unfold consistent, dispose, isReady. simpl.
  repeat split; try assumption; try discriminate; congruence.
Qed.

Lemma performAll_consistent (target : Canvas) (ms : list Method)
    (r : Canvas2DRenderer) :
  consistent target r -> consistent target (performAll r ms).
Proof.
  revert r. induction ms as [|m ms IH]; intros r H; simpl; [exact H|].
  apply IH. destruct m; simpl.
  - apply render_consistent. exact H.
  - apply clear_consistent. exact H.
  - apply dispose_consistent. exact H.
Qed.

(** X1: a renderer is ready after its construction exactly when
    [getContext] gave a context.  Through every sequence of [render],
    [clear] and [dispose] calls that follows, it keeps the canvas of the
    constructor, [isReady] is the flag [isInitialized], the flag is set
    exactly when there is a context, and the context keeps smoothing
    enabled at high quality. *)
Theorem renderer_lifetime (options : Canvas2DRendererOptions) (ms : list Method) :
  (isReady (constructor options) = true <->
   exists c, getContext (options_canvas options) = ContextOk c) /\
  consistent (options_canvas options) (performAll (constructor options) ms).
Proof.
  split.
  - unfold constructor, initialize, isReady. simpl.
    destruct (getContext (options_canvas options)) as [| |c]; simpl; split;
      try discriminate; try (intros [c' H]; discriminate); eauto.
  - apply performAll_consistent, constructor_consistent.
Qed.

Lemma perform_disposed (r : Canvas2DRenderer) (m : Method) :
  perform (dispose r) m = dispose r.
Proof.
  destruct m; reflexivity.
Qed.

(** X2: [dispose] is final.  Whatever is called on a disposed renderer, it
    stays as [dispose] left it: not ready, without a context, every
    [render] returning [false]. *)
Theorem dispose_is_final (r : Canvas2DRenderer) (ms : list Method)
    (source : Canvas) :
  performAll (dispose r) ms = dispose r /\
  isReady (performAll (dispose r) ms) = false /\
  render (performAll (dispose r) ms) source = (dispose r, false).
Proof.
  assert (performAll (dispose r) ms = dispose r) as H.
  { induction ms as [|m ms IH]; simpl; [reflexivity|].
    rewrite perform_disposed. exact IH. }
  rewrite H. repeat split.
Qed.

(** ** What one call paints *)

(** X3: [render] only ever adds to what the context has painted, and keeps
    the canvas and the flag.  It adds the black fill and the frame and
    returns [true]; or nothing and returns [false]; or, when [drawImage]
    throws after the fill went through, the black fill alone, and returns
    [false]. *)
Theorem render_effect (r : Canvas2DRenderer) (source : Canvas) :
  canvas (fst (render r source)) = canvas r /\
  isInitialized (fst (render r source)) = isInitialized r /\
  exists added,
    paintedBy (fst (render r source)) = paintedBy r ++ added /\
    (snd (render r source) = true /\ added = frameOps r source \/
     snd (render r source) = false /\ added = [] \/
     snd (render r source) = false /\
     added = [FillRect "black" 0 0 (Z.of_N (width (canvas r)))
                       (Z.of_N (height (canvas r)))] /\
     exists c op, ctx r = Some c /\ nth_error (frameOps r source) 1 = Some op /\
                  throws c op = true).
Proof.
  unfold render, fillRect, drawImage, issue, paintedBy, frameOps.
  destruct (ctx r) as [c|] eqn:Hctx; simpl.
  2: { rewrite Hctx. repeat split. exists []. split; [reflexivity|]. auto. }
  destruct (negb (isReady r)); simpl.
  1: { rewrite Hctx. repeat split. exists []. rewrite app_nil_r. auto. }
  destruct (_ || _)%bool; simpl.
  1: { rewrite Hctx. repeat split. exists []. rewrite app_nil_r. auto. }
  destruct (_ || _)%bool; simpl.
  1: { rewrite Hctx. repeat split. exists []. rewrite app_nil_r. auto. }
  destruct (throws c (FillRect _ _ _ _ _)) eqn:Hf; simpl.
  1: { repeat split. exists []. rewrite app_nil_r. auto. }
  match goal with
  | |- context [if throws c ?op then _ else _] =>
    destruct (throws c op) eqn:Hd; simpl
  end.
  - repeat split. eexists. split; [reflexivity|].
    right. right. repeat split. eexists c, _. repeat split. exact Hd.
  - repeat split. eexists. split; [rewrite <- app_assoc; reflexivity|].
    left. split; reflexivity.
Qed.

(** X4: [render] returns [true] exactly when the renderer is initialized
    and has a context, neither the source nor the canvas has a zero width
    or height, and the context throws on neither of the two calls of the
    frame. *)
Theorem render_succeeds_iff (r : Canvas2DRenderer) (source : Canvas) :
  snd (render r source) = true <->
  exists c,
    ctx r = Some c /\ isInitialized r = true /\
    width source <> 0%N /\ height source <> 0%N /\
    width (canvas r) <> 0%N /\ height (canvas r) <> 0%N /\
    forall op, In op (frameOps r source) -> throws c op = false.
Proof.
  split.
  - intros H.
    destruct (render_true_inv r source H)
      as (c & Hc & Hi & Hsw & Hsh & Hcw & Hch & _).
    exists c. repeat split; try assumption.
    intros op Hin. destruct (throws c op) eqn:Ht; [|reflexivity].
    rewrite (@render_caught r source c Hc) in H; [discriminate|].
    exists op. split; assumption.
  - intros (c & Hc & Hi & Hsw & Hsh & Hcw & Hch & Hops).
    unfold render, isReady, fillRect, drawImage, issue. rewrite Hc, Hi. simpl.
    apply N.eqb_neq in Hsw, Hsh, Hcw, Hch. rewrite Hsw, Hsh, Hcw, Hch. simpl.
    rewrite (Hops _ (or_introl eq_refl)). simpl.
    rewrite (Hops _ (or_intror (or_introl eq_refl))). reflexivity.
Qed.

(** X5: [clear] on a ready renderer issues one black [fillRect] over the
    whole canvas, whatever its size, and returns, or lets the exception of
    that call escape; on a renderer that is not ready it does nothing. *)
Theorem clear_effect (r : Canvas2DRenderer) :
  (isReady r = false -> clear r = (r, true)) /\
  (forall c, isReady r = true -> ctx r = Some c ->
     let fill := FillRect "black" 0 0 (Z.of_N (width (canvas r)))
                          (Z.of_N (height (canvas r))) in
     (throws c fill = false ->
      snd (clear r) = true /\
      paintedBy (fst (clear r)) = painted c ++ [fill]) /\
     (throws c fill = true ->
      snd (clear r) = false /\
      paintedBy (fst (clear r)) = painted c)).
Proof.
  unfold clear, fillRect, issue, paintedBy, isReady. split.
  - destruct (ctx r) as [c|]; [|reflexivity].
    intros H. rewrite H. reflexivity.
  - intros c Hr Hc. rewrite Hc in *. rewrite Hr. simpl.
    split; intros Ht; rewrite Ht; split; reflexivity.
Qed.

Lemma clear_effect_witness :
  paintedBy (fst (clear onScreen)) = [FillRect "black" 0 0 1920 1080] /\
  clear (dispose onScreen) = (dispose onScreen, true).
Proof.
  destruct (clear_effect onScreen) as [_ Hready].
  destruct (Hready (set_smoothing freshContext) eq_refl eq_refl) as [Hok _].
  destruct (Hok eq_refl) as [_ Hp].
  destruct (clear_effect (dispose onScreen)) as [Hnot _].
  split; [exact Hp|exact (Hnot eq_refl)].
Defined.

(** ** The sides of the letterbox *)

Local Open Scope Q_scope.

(** Rounding a quotient of integers is one integer division. *)
Lemma round_div (a b : Z) :
  (0 < b)%Z -> round (inject_Z a / inject_Z b) = ((2 * a + b) / (2 * b))%Z.
Proof.
  intros Hb. rewrite Zdiv_Qdiv. unfold round. apply Qfloor_comp.
  rewrite !inject_Z_plus, !inject_Z_mult. change (inject_Z 2) with 2.
  assert (~ inject_Z b == 0) as Hnz.
  { change 0 with (inject_Z 0). rewrite inject_Z_injective. lia. }
  field; repeat split; try assumption; try lra.
Qed.

(** Each offset is half the room left, a half pixel rounded up. *)
Lemma offsets (sw sh cw ch : N) :
  dx sw sh cw ch = ((Z.of_N cw - destW sw sh cw ch + 1) / 2)%Z /\
  dy sw sh cw ch = ((Z.of_N ch - destH sw sh cw ch + 1) / 2)%Z.
Proof.
  unfold dx, dy. change 2 with (inject_Z 2).
  rewrite !round_div by lia. split.
  - replace (2 * (Z.of_N cw - destW sw sh cw ch) + 2)%Z
      with (2 * (Z.of_N cw - destW sw sh cw ch + 1))%Z by lia.
    apply Z.div_mul_cancel_l; lia.
  - replace (2 * (Z.of_N ch - destH sw sh cw ch) + 2)%Z
      with (2 * (Z.of_N ch - destH sw sh cw ch + 1))%Z by lia.
    apply Z.div_mul_cancel_l; lia.
Qed.

(** Equal aspect ratios, as ratios. *)
Lemma same_ratio (sw sh cw ch : N) :
  sw <> 0%N -> sh <> 0%N -> (cw * sh = ch * sw)%N ->
  num cw / num sw == num ch / num sh.
Proof.
  intros Hsw Hsh H.
  pose proof (num_pos Hsw) as Psw. pose proof (num_pos Hsh) as Psh.
  assert (num cw * num sh == num ch * num sw) as E.
  { unfold num. rewrite <- !inject_Z_mult. apply inject_Z_injective. lia. }
  apply Qle_antisym; apply div_le_cross; try assumption; rewrite E; apply Qle_refl.
Qed.

(** A side whose ideal length is below one half by a full [1 / d] is
    rounded to 0, the two relative errors notwithstanding. *)
Lemma side_vanishes (b a d : N) (s : Q) :
  b <> 0%N -> d <> 0%N -> unsignedLong d ->
  0 <= s -> s <= num a / num d * (1 + eps) ->
  (2 * b * a < d)%N ->
  round (double (num b * s)) = 0%Z.
Proof.
  intros Hb Hd Bd Hs0 Hs Hlt.
  pose proof (num_pos Hb) as Pb. pose proof (num_pos Hd) as Pd.
  destruct (product_upper Pb Hs0 Hs) as [P1 P2].
  set (t := num b * (num a / num d)) in *.
  set (u := 1 / num d).
  assert (2 * t + u <= 1) as Ht.
  { assert (2 * t + u == (2 * (num b * num a) + 1) / num d) as ->
      by (unfold t, u; field; lra).
    apply Qle_shift_div_r; [assumption|].
    unfold num. rewrite <- !inject_Z_mult.
    change 2 with (inject_Z 2). change 1 with (inject_Z 1).
    rewrite <- !inject_Z_mult, <- inject_Z_plus, <- Zle_Qle. lia. }
  assert ((1 # 4294967295) <= u) as Hu.
  { unfold u. apply Qle_shift_div_l; [assumption|].
    pose proof (num_bound Bd). lra. }
  assert (0 <= t) as Ht0.
  { unfold t. apply Qmult_le_0_compat; [lra|].
    apply Qle_shift_div_l; [assumption|]. rewrite Qmult_0_l. apply num_nonneg. }
  apply round_eq; change (inject_Z 0) with 0; unfold eps in *; lra.
Qed.

(** A side that was rounded to 0 has an ideal length of at most one
    half. *)
Lemma side_vanished (b a d : N) (s : Q) :
  b <> 0%N -> d <> 0%N -> unsignedLong d ->
  num a / num d * (1 - eps) <= s ->
  round (double (num b * s)) = 0%Z ->
  (2 * b * a <= d)%N.
Proof.
  intros Hb Hd Bd Hs Hz.
  pose proof (num_pos Hb) as Pb. pose proof (num_pos Hd) as Pd.
  assert (0 <= num a / num d) as Hq.
  { apply Qle_shift_div_l; [assumption|]. rewrite Qmult_0_l. apply num_nonneg. }
  pose proof (product_lower Pb Hq Hs) as P1.
  destruct (round_bounds (double (num b * s))) as [_ R2].
  rewrite Hz in R2. change (inject_Z 0) with 0 in R2.
  set (t := num b * (num a / num d)) in *.
  set (u := 1 / num d).
  destruct (N.le_gt_cases (2 * b * a) d) as [Hle | Hgt]; [exact Hle|].
  exfalso.
  assert (1 + u <= 2 * t) as Ht.
  { assert (2 * t == (2 * (num b * num a)) / num d) as ->
      by (unfold t; field; lra).
    assert (1 + u == (num d + 1) / num d) as ->
      by (unfold u; field; lra).
    apply Qle_shift_div_l; [assumption|].
    assert ((num d + 1) / num d * num d == num d + 1) as -> by (field; lra).
    unfold num. rewrite <- !inject_Z_mult.
    change 2 with (inject_Z 2). change 1 with (inject_Z 1).
    rewrite <- !inject_Z_mult, <- inject_Z_plus, <- Zle_Qle. lia. }
  assert ((1 # 4294967295) <= u) as Hu.
  { unfold u. apply Qle_shift_div_l; [assumption|].
    pose proof (num_bound Bd). lra. }
  unfold eps in *. lra.
Qed.

(** The scale is at least the rounded ratio it was taken from, and both
    rounded ratios are at least the ideal ones, up to [eps]. *)
Lemma scale_ge_width_or_height (sw sh cw ch : N) :
  sw <> 0%N -> sh <> 0%N ->
  num cw / num sw * (1 - eps) <= scale sw sh cw ch \/
  num ch / num sh * (1 - eps) <= scale sw sh cw ch.
Proof.
  intros Hsw Hsh. unfold scale.
  destruct (double_error (ratio_nonneg cw Hsw)) as [A1 _].
  destruct (double_error (ratio_nonneg ch Hsh)) as [B1 _].
  destruct (Qmin_cases (double (num cw / num sw)) (double (num ch / num sh)))
    as [[-> _] | [-> _]]; [left|right]; assumption.
Qed.

Local Open Scope Z_scope.

(** X7: on a canvas below 2^32 pixels on each side, the rectangle always
    spans the canvas in one direction, where its offset is 0; the bars are
    on two opposite sides only. *)
Theorem letterbox_spans_one_side (sw sh cw ch : N) :
  sw <> 0%N -> sh <> 0%N -> unsignedLong cw -> unsignedLong ch ->
  (destW sw sh cw ch = Z.of_N cw /\ dx sw sh cw ch = 0) \/
  (destH sw sh cw ch = Z.of_N ch /\ dy sw sh cw ch = 0).
Proof.
  intros Hsw Hsh Bcw Bch. destruct (offsets sw sh cw ch) as [Hx Hy].
  destruct (Qmin_cases (double (num cw / num sw)) (double (num ch / num sh)))
    as [[E _] | [E _]].
  - left. assert (destW sw sh cw ch = Z.of_N cw) as Hw.
    { unfold destW, scale. rewrite E. apply side_fills; assumption. }
    split; [exact Hw|]. rewrite Hx, Hw, Z.sub_diag. reflexivity.
  - right. assert (destH sw sh cw ch = Z.of_N ch) as Hh.
    { unfold destH, scale. rewrite E. apply side_fills; assumption. }
    split; [exact Hh|]. rewrite Hy, Hh, Z.sub_diag. reflexivity.
Qed.

Lemma letterbox_spans_one_side_witness :
  (destW 640 480 1920 1080 = 1920 /\ dx 640 480 1920 1080 = 0) \/
  (destH 640 480 1920 1080 = 1080 /\ dy 640 480 1920 1080 = 0).
Proof.
  apply (@letterbox_spans_one_side 640 480 1920 1080);
    [discriminate|discriminate|reflexivity|reflexivity].
Defined.

(** X8: a source with the aspect ratio of the canvas covers it entirely,
    scaled up or down as needed: no bar is left (canvas below 2^32 pixels
    on each side). *)
Theorem same_aspect_fills_canvas (sw sh cw ch : N) :
  sw <> 0%N -> sh <> 0%N -> unsignedLong cw -> unsignedLong ch ->
  (cw * sh = ch * sw)%N ->
  destW sw sh cw ch = Z.of_N cw /\ destH sw sh cw ch = Z.of_N ch /\
  dx sw sh cw ch = 0 /\ dy sw sh cw ch = 0.
Proof.
  intros Hsw Hsh Bcw Bch H. destruct (offsets sw sh cw ch) as [Hx Hy].
  pose proof (@same_ratio sw sh cw ch Hsw Hsh H) as E.
  destruct (@scale_near sw sh cw ch Hsw Hsh) as [S1 S2].
  assert (idealScale sw sh cw ch == num cw / num sw) as Ew.
  { unfold idealScale. apply Q.min_l. rewrite E. apply Qle_refl. }
  assert (idealScale sw sh cw ch == num ch / num sh) as Eh.
  { unfold idealScale. apply Q.min_r. rewrite E. apply Qle_refl. }
  assert (destW sw sh cw ch = Z.of_N cw) as Hw.
  { unfold destW. apply side_hits; try assumption; rewrite <- Ew; assumption. }
  assert (destH sw sh cw ch = Z.of_N ch) as Hh.
  { unfold destH. apply side_hits; try assumption; rewrite <- Eh; assumption. }
  rewrite Hx, Hy, Hw, Hh, !Z.sub_diag. repeat split.
Qed.

Lemma same_aspect_fills_canvas_witness :
  destW 640 360 1920 1080 = 1920 /\ destH 640 360 1920 1080 = 1080 /\
  dx 640 360 1920 1080 = 0 /\ dy 640 360 1920 1080 = 0.
Proof.
  apply (@same_aspect_fills_canvas 640 360 1920 1080);
    [discriminate|discriminate|reflexivity|reflexivity|reflexivity].
Defined.

(** At exactly [2 * sw * ch = sh] the ideal width is one half, and the
    rounding of the division decides: a 25x50 source on a canvas one pixel
    high is drawn one pixel wide, a 49x98 source with no width. *)
Example letterbox_tie :
  (destW 25 50 100000 1, destW 49 98 100000 1) = (1, 0).
Proof. vm_compute. reflexivity. Qed.

(** X9: with source sides below 2^32, the drawn rectangle has no width
    when the source is more than [2 * sw * ch] high, and only when it is at
    least that high; it has no height when the source is more than
    [2 * sh * cw] wide, and only when it is at least that wide; it never
    lacks both.  (At exactly [2 * sw * ch = sh] the rounding of the doubles
    decides.) *)
Theorem letterbox_degenerate (sw sh cw ch : N) :
  sw <> 0%N -> sh <> 0%N -> cw <> 0%N -> ch <> 0%N ->
  unsignedLong sw -> unsignedLong sh ->
  ((2 * sw * ch < sh)%N -> destW sw sh cw ch = 0) /\
  (destW sw sh cw ch = 0 -> (2 * sw * ch <= sh)%N) /\
  ((2 * sh * cw < sw)%N -> destH sw sh cw ch = 0) /\
  (destH sw sh cw ch = 0 -> (2 * sh * cw <= sw)%N) /\
  (destW sw sh cw ch <> 0 \/ destH sw sh cw ch <> 0).
Proof.
  intros Hsw Hsh Hcw Hch Bsw Bsh.
  pose proof (@scale_nonneg sw sh cw ch Hsw Hsh) as S0.
  assert (destW sw sh cw ch = 0 -> (2 * sw * ch <= sh)%N) as HW.
  { unfold destW. intros Hz.
    destruct (@scale_ge_width_or_height sw sh cw ch Hsw Hsh) as [Hs | Hs].
    - pose proof (@side_vanished sw cw sw _ Hsw Hsw Bsw Hs Hz). nia.
    - exact (@side_vanished sw ch sh _ Hsw Hsh Bsh Hs Hz). }
  assert (destH sw sh cw ch = 0 -> (2 * sh * cw <= sw)%N) as HH.
  { unfold destH. intros Hz.
    destruct (@scale_ge_width_or_height sw sh cw ch Hsw Hsh) as [Hs | Hs].
    - exact (@side_vanished sh cw sw _ Hsh Hsw Bsw Hs Hz).
    - pose proof (@side_vanished sh ch sh _ Hsh Hsh Bsh Hs Hz). nia. }
  split; [|split; [exact HW|split; [|split; [exact HH|]]]].
  - intros Hlt. unfold destW.
    apply side_vanishes with (a := ch) (d := sh); try assumption.
    apply scale_le_height; assumption.
  - intros Hlt. unfold destH.
    apply side_vanishes with (a := cw) (d := sw); try assumption.
    apply scale_le_width; assumption.
  - destruct (Z.eq_dec (destW sw sh cw ch) 0) as [Ew | Ew]; [|left; exact Ew].
    right. intros Eh. specialize (HW Ew). specialize (HH Eh). nia.
Qed.

Lemma letterbox_degenerate_witness :
  destW 1 5000 1920 1080 = 0 /\ destH 1 5000 1920 1080 <> 0.
Proof.
  destruct (@letterbox_degenerate 1 5000 1920 1080) as (Hw & _ & _ & Hh & _).
  1-4: discriminate.
  1-2: reflexivity.
  split; [apply Hw; reflexivity|].
  intros E. apply Hh in E. vm_compute in E. apply E. reflexivity.
Defined.

End Canvas2DMore.

(* ===================================================================== *)
(** * More on PlayerCore *)
(* ===================================================================== *)

Module PlayerMore.

Import Player PlayerFacts.

Section Core.

Variables X MediaSource Input : Type.
Variable deps : PlayerCoreDeps X MediaSource Input.

(** ** load *)

(** X10: [load] begins with [reset], so it does not depend on what the
    player showed before: from two worlds over the same pipeline it runs
    the same, as it does on a new player. *)
Theorem load_starts_afresh (source : MediaSource) (options : LoadOptions)
    (w : World X) :
  load deps source options w
    = load deps source options (newPlayer (pipeline w)).
Proof.
  unfold load, newPlayer. unfold_monad. unfold StateFacade.reset. simpl.
  reflexivity.
Qed.

(** [Promise.all] over four calls of which one at least rejects. *)
Lemma promiseAll4_rejects (A B C D : Type) (first : X -> nat)
    (a : X -> X * Result A) (b : X -> X * Result B)
    (c : X -> X * Result C) (d : X -> X * Result D)
    (x xa xb xc xd : X) (ra : Result A) (rb : Result B) (rc : Result C)
    (rd : Result D) (e0 : Error) (later : list Error) :
  a x = (xa, ra) -> b xa = (xb, rb) -> c xb = (xc, rc) -> d xc = (xd, rd) ->
  rejection ra ++ rejection rb ++ rejection rc ++ rejection rd = e0 :: later ->
  promiseAll4 first a b c d x = (xd, Throw (nth (first xd) (e0 :: later) e0)).
Proof.
  intros Ha Hb Hc Hd Hr. unfold promiseAll4. rewrite Ha, Hb, Hc, Hd.
  destruct ra, rb, rc, rd; simpl in Hr; try discriminate;
    injection Hr as <- <-; try reflexivity.
  destruct (first xd) as [|[|n]]; reflexivity.
Qed.

(** X11: a [load] that fails before its metadata is complete rejects with
    the error of that step: the source manager's, "Failed to create input
    from source" when it yields no input, the track manager's, or, when
    some of the four metadata calls reject, the rejection among them that
    settled first.  It emits [loadstart] and [error] and nothing else,
    never reaches the controller or the switcher, and commits nothing: the
    state shows no media info, no tracks and no duration. *)
Theorem load_fails_early (source : MediaSource) (options : LoadOptions)
    (w : World X) (e : Error) (x : X) :
  (sourceManager_createSource deps source (pipeline w) = (x, Throw e) \/
   (sourceManager_createSource deps source (pipeline w)
      = (x, Ok {| input := None |}) /\
    e = {| message := "Failed to create input from source" |}) \/
   (exists x1 input,
      sourceManager_createSource deps source (pipeline w)
        = (x1, Ok {| Player.input := Some input |}) /\
      trackManager_initialize deps input x1 = (x, Throw e)) \/
   (exists x1 x2 input xa xb xc ra rb rc rd e0 later,
      sourceManager_createSource deps source (pipeline w)
        = (x1, Ok {| Player.input := Some input |}) /\
      trackManager_initialize deps input x1 = (x2, Ok tt) /\
      input_computeDuration deps input x2 = (xa, ra) /\
      input_getFormat deps input xa = (xb, rb) /\
      input_getMimeType deps input xb = (xc, rc) /\
      input_getMetadataTags deps input xc = (x, rd) /\
      rejection ra ++ rejection rb ++ rejection rc ++ rejection rd
        = e0 :: later /\
      e = nth (settlesFirst deps x) (e0 :: later) e0)) ->
  outcome (load deps source options w) = Throw e /\
  events (emitted (load deps source options w)) = [ev_loadstart; ev_error e] /\
  pipeline (final (load deps source options w)) = x /\
  mediaInfo (facade (final (load deps source options w))) = None /\
  tracks (facade (final (load deps source options w))) = noTracks /\
  duration (facade (final (load deps source options w))) = None /\
  error (facade (final (load deps source options w))) = Some e.
Proof.
  intros [H | [[H ->] | [(x1 & input & H & H1) | H]]].
  4: { destruct H as (x1 & x2 & input & xa & xb & xc & ra & rb & rc & rd
                        & e0 & later & H & H1 & Ha & Hb & Hc & Hd & Hr & ->).
       pose proof (promiseAll4_rejects (settlesFirst deps) _ _ _ _ _
                     Ha Hb Hc Hd Hr) as H2.
       unfold load. unfold_monad. simpl.
       rewrite H; simpl; rewrite H1; simpl; rewrite H2; simpl.
       repeat split. }
  all: unfold load; unfold_monad; simpl;
    rewrite H; simpl; rewrite ?H1; simpl; repeat split.
Qed.

(** X12: a [load] succeeds only through the track switcher: a primary video
    or audio track exists, the switcher was asked and reported at least one
    of the two supported.  Its [warning] events are then one
    [codec-warning] carrying the switcher's text trimmed, when that text is
    not empty, and none otherwise. *)
Theorem load_success_needs_track (source : MediaSource) (options : LoadOptions)
    (w : World X) :
  outcome (load deps source options w) = Ok tt ->
  exists x x' report,
    trackSwitcher_setupInitialTracks deps
      (trackManager_getPrimaryVideoTrack deps x)
      (trackManager_getPrimaryAudioTrack deps x) x = (x', Ok report) /\
    isSome (trackManager_getPrimaryVideoTrack deps x)
      || isSome (trackManager_getPrimaryAudioTrack deps x) = true /\
    videoSupported report || audioSupported report = true /\
    filter isWarningEvent (events (emitted (load deps source options w)))
      = if truthy (warningMessage report)
        then [ev_warning "codec-warning" (trim (warningMessage report))]
        else [].
Proof.
  unfold load, play, seek. unfold_monad. intros H.
  steps;
    match goal with
    | Hc : trackSwitcher_setupInitialTracks deps ?v ?a ?x = (?x', Ok ?r) |- _ =>
      exists x, x', r
    end;
    repeat match goal with
           | Hv : trackManager_getPrimaryVideoTrack deps _ = _ |- _ =>
             rewrite Hv in *
           | Ha : trackManager_getPrimaryAudioTrack deps _ = _ |- _ =>
             rewrite Ha in *
           end;
    repeat split; try assumption;
    match goal with
    | r : TrackSwitchResult |- _ =>
      destruct (videoSupported r), (audioSupported r),
               (truthy (warningMessage r));
      simpl in *; try discriminate; reflexivity
    end.
Qed.

(** X13: [autoplay] and [startTime] are trailing steps.  When the load
    itself succeeds, a [load] with options is that load followed by [play]
    (if [autoplay]) and then [seek] (if [startTime]); when one of the two
    fails, [load] rejects with its error and its own handler reports the
    error once more, after the report of [play] or [seek]; what the load
    committed stays. *)
Theorem load_then_trailing (source : MediaSource) (options : LoadOptions)
    (w : World X) :
  outcome (load deps source noOptions w) = Ok tt ->
  let loaded := final (load deps source noOptions w) in
  let tail := trailing deps options loaded in
  outcome (load deps source options w) = outcome tail /\
  pipeline (final (load deps source options w)) = pipeline (final tail) /\
  match outcome tail with
  | Ok _ =>
    facade (final (load deps source options w)) = facade (final tail) /\
    emitted (load deps source options w)
      = emitted (load deps source noOptions w) ++ emitted tail
  | Throw e =>
    facade (final (load deps source options w))
      = StateFacade.updateError e (facade (final tail)) /\
    emitted (load deps source options w)
      = emitted (load deps source noOptions w) ++ emitted tail
        ++ errorReport (StateFacade.updateError e (facade (final tail))) e
  end.
Proof.
  unfold load, trailing, play, seek, noOptions, errorReport. unfold_monad.
  intros H. steps; repeat split; rewrite ?app_nil_r; reflexivity.
Qed.

(** ** play *)

(** X14: past the idle check, [play] is the controller's [play]: when that
    resolves, [isPlaying] is set and [play], [playing] are emitted, in this
    order; when it rejects, [play] rejects with the same error, reports it,
    emits neither event and leaves [isPlaying] as it was. *)
Theorem play_effect (w : World X) :
  state (facade w) <> state_idle ->
  (forall x,
     playbackController_play deps (pipeline w) = (x, Ok tt) ->
     outcome (play deps w) = Ok tt /\
     pipeline (final (play deps w)) = x /\
     isPlaying (facade (final (play deps w))) = true /\
     events (emitted (play deps w)) = [ev_play; ev_playing]) /\
  (forall x e,
     playbackController_play deps (pipeline w) = (x, Throw e) ->
     outcome (play deps w) = Throw e /\
     pipeline (final (play deps w)) = x /\
     isPlaying (facade (final (play deps w))) = isPlaying (facade w) /\
     emitted (play deps w)
       = errorReport (StateFacade.updateError e (facade w)) e).
Proof.
  intros Hs. unfold play, errorReport. unfold_monad. simpl.
  destruct (state (facade w)); try (elim Hs; reflexivity);
    split; intros; simpl;
    match goal with
    | H : playbackController_play deps _ = _ |- _ => rewrite H
    end; simpl; repeat split.
Qed.

(** ** stop *)

(** X15: [stop] has no idle check of its own and reports through two
    handlers.  A failure of its [pause] step is reported once.  A failure
    of its [seek 0] step, the idle rejection included, comes after the
    controller was paused and [pause] was emitted, and is reported twice:
    by [seek] and again by [stop]. *)
Theorem stop_reports (w : World X) :
  (forall x e,
     playbackController_pause deps (pipeline w) = (x, Throw e) ->
     outcome (stop deps w) = Throw e /\
     events (emitted (stop deps w)) = [ev_error e]) /\
  (forall x,
     playbackController_pause deps (pipeline w) = (x, Ok tt) ->
     state (facade w) = state_idle ->
     outcome (stop deps w) = Throw {| message := "No media loaded" |} /\
     pipeline (final (stop deps w)) = x /\
     events (emitted (stop deps w))
       = [ev_pause; ev_error {| message := "No media loaded" |};
          ev_error {| message := "No media loaded" |}]) /\
  (forall x x' e,
     playbackController_pause deps (pipeline w) = (x, Ok tt) ->
     state (facade w) <> state_idle ->
     playbackController_seek deps 0 x = (x', Throw e) ->
     outcome (stop deps w) = Throw e /\
     events (emitted (stop deps w))
       = [ev_pause; ev_seeking 0; ev_error e; ev_error e]).
Proof.
  unfold stop, pause, seek. unfold_monad. simpl.
  split; [|split].
  - intros x e H. rewrite H. simpl. split; reflexivity.
  - intros x H Hs. rewrite H. simpl. rewrite Hs. simpl. repeat split.
  - intros x x' e H Hs Hk. rewrite H. simpl.
    destruct (state (facade w)); try (elim Hs; reflexivity);
      simpl; rewrite Hk; simpl; split; reflexivity.
Qed.

(** ** The error channel *)

Lemma ends_with (l : list Action) (a b c : Action) (rest : list Action) :
  rev l = c :: b :: a :: rest -> l = rev rest ++ [a; b; c].
Proof.
  intros H. rewrite <- (rev_involutive l), H. simpl.
  rewrite <- !app_assoc. reflexivity.
Qed.

(** Closes the goals on a call that was rejected: the error is the one
    recorded, and its report ends what the call made observable. *)
Ltac reported :=
  repeat match goal with
         | H : Throw _ = Throw _ |- _ => injection H as <-
         end;
  split; [reflexivity|]; split; [reflexivity|];
  eexists; apply ends_with; simpl; reflexivity.

(** X16: [load], [play], [seek] and [stop] keep the state, the events and
    the thrown error in step.  When one of them rejects with [e], the
    state is [error] and holds [e], and the last things the call made
    observable are the snapshot of that state, the event [error e] and the
    log line, in this order.  When it resolves, it emitted no [error]
    event at all. *)
Theorem error_channel (c : Call MediaSource) (w : World X) :
  c <> CallPause MediaSource ->
  (forall e,
     outcome (invoke deps c w) = Throw e ->
     error (facade (final (invoke deps c w))) = Some e /\
     state (facade (final (invoke deps c w))) = state_error /\
     exists before,
       emitted (invoke deps c w)
         = before ++ errorReport (facade (final (invoke deps c w))) e) /\
  (outcome (invoke deps c w) = Ok tt ->
   filter isErrorEvent (events (emitted (invoke deps c w))) = []).
Proof.
  intros Hc. unfold errorReport.
  destruct c as [source options| | |time|]; try (elim Hc; reflexivity);
    simpl; (split; [intros e H|intros H]).
  - revert H. unfold load, play, seek. unfold_monad. intros H.
    steps; reported.
  - revert H. unfold load, play, seek. unfold_monad. intros H.
    steps; reflexivity.
  - revert H. unfold play. unfold_monad. intros H. steps; reported.
  - revert H. unfold play. unfold_monad. intros H. steps; reflexivity.
  - revert H. unfold seek. unfold_monad. intros H. steps; reported.
  - revert H. unfold seek. unfold_monad. intros H. steps; reflexivity.
  - revert H. unfold stop, pause, seek. unfold_monad. intros H.
    steps; reported.
  - revert H. unfold stop, pause, seek. unfold_monad. intros H.
    steps; reflexivity.
Qed.

(** X17: the idle check stops only the first call.  A [play] or [seek] on
    an idle player is rejected and reported; the report takes the state
    from [idle] to [error], so the same call made again passes the check
    and reaches the controller, although nothing was loaded: if the
    controller's [play] resolves, the player shows [isPlaying] without a
    media info. *)
Theorem idle_check_once (w : World X) (time : Q) (x x' x1 x2 : X) (t t' : Q) :
  state (facade w) = state_idle ->
  mediaInfo (facade w) = None ->
  playbackController_play deps (pipeline w) = (x, Ok tt) ->
  playbackController_seek deps time (pipeline w) = (x', Ok tt) ->
  playbackController_getCurrentTime deps x' = (x1, Ok t) ->
  playbackController_getCurrentTime deps x1 = (x2, Ok t') ->
  (outcome (play deps w) = Throw {| message := "No media loaded" |} /\
   outcome (play deps (final (play deps w))) = Ok tt /\
   pipeline (final (play deps (final (play deps w)))) = x /\
   isPlaying (facade (final (play deps (final (play deps w))))) = true /\
   mediaInfo (facade (final (play deps (final (play deps w))))) = None) /\
  (outcome (seek deps time w) = Throw {| message := "No media loaded" |} /\
   outcome (seek deps time (final (seek deps time w))) = Ok tt /\
   pipeline (final (seek deps time (final (seek deps time w)))) = x2).
Proof.
  intros Hs Hm Hp Hk Hr Hr'. unfold play, seek. unfold_monad. simpl.
  rewrite Hs. simpl. rewrite Hp, Hk. simpl. rewrite Hr. simpl. rewrite Hr'.
  simpl. rewrite Hm. repeat split.
Qed.

End Core.

(** ** On the concrete pipeline *)

Import Fixture.

Local Open Scope string_scope.

Lemma load_fails_early_witness :
  (outcome (load (deps playable) "" noOptions (loaded playable))
     = Throw {| message := "Failed to create input from source" |} /\
   events (emitted (load (deps playable) "" noOptions (loaded playable)))
     = [ev_loadstart;
        ev_error {| message := "Failed to create input from source" |}] /\
   mediaInfo (facade (final (load (deps playable) "" noOptions (loaded playable))))
     = None) /\
  (outcome (load racing "clip.mp4" noOptions (newPlayer idlePipeline))
     = Throw {| message := "format failed" |} /\
   events (emitted (load racing "clip.mp4" noOptions (newPlayer idlePipeline)))
     = [ev_loadstart; ev_error {| message := "format failed" |}]).
Proof.
  split.
  - destruct (@load_fails_early _ _ _ (deps playable) "" noOptions
                (loaded playable)
                {| message := "Failed to create input from source" |}
                (pipeline (loaded playable)))
      as (H1 & H2 & _ & H4 & _).
    + right. left. split; reflexivity.
    + repeat split; assumption.
  - destruct (@load_fails_early _ _ _ racing "clip.mp4" noOptions
                (newPlayer idlePipeline)
                {| message := "format failed" |}
                {| position := 0; running := false;
                   opened := ([h264], [aac], []) |})
      as (H1 & H2 & _).
    + right. right. right.
      exists idlePipeline,
             {| position := 0; running := false; opened := ([h264], [aac], []) |},
             "clip.mp4",
             {| position := 0; running := false; opened := ([h264], [aac], []) |},
             {| position := 0; running := false; opened := ([h264], [aac], []) |},
             {| position := 0; running := false; opened := ([h264], [aac], []) |},
             (Throw {| message := "duration failed" |}),
             (Throw {| message := "format failed" |}),
             (Ok "video/mp4"), (Ok [("title", "clip")]),
             {| message := "duration failed" |},
             [{| message := "format failed" |}].
      repeat split.
    + split; assumption.
Defined.

Lemma load_success_needs_track_witness :
  filter isWarningEvent
    (events (emitted (load (deps audioOnly) "clip.mp4" noOptions
                           (newPlayer idlePipeline))))
  = [ev_warning "codec-warning" "Unsupported video codec: hev1"].
Proof.
  destruct (@load_success_needs_track _ _ _ (deps audioOnly) "clip.mp4"
              noOptions (newPlayer idlePipeline) eq_refl)
    as (x & x' & report & Hcall & _ & _ & Hw).
  rewrite Hw. vm_compute in Hcall. injection Hcall as _ <-. reflexivity.
Defined.

Lemma load_then_trailing_witness :
  outcome (load (deps brokenSeek) "clip.mp4"
                {| autoplay := Some true; startTime := Some 5 |}
                (newPlayer idlePipeline))
    = Throw {| message := "Seek failed" |} /\
  running (pipeline (final (load (deps brokenSeek) "clip.mp4"
                                 {| autoplay := Some true; startTime := Some 5 |}
                                 (newPlayer idlePipeline)))) = true.
Proof.
  destruct (@load_then_trailing _ _ _ (deps brokenSeek) "clip.mp4"
              {| autoplay := Some true; startTime := Some 5 |}
              (newPlayer idlePipeline) eq_refl) as (Ho & Hp & _).
  split; [rewrite Ho|rewrite Hp]; reflexivity.
Defined.

Lemma play_effect_witness :
  events (emitted (play (deps playable) (loaded playable)))
    = [ev_play; ev_playing] /\
  outcome (play brokenPlay (loaded playable))
    = Throw {| message := "Decoder is gone" |} /\
  isPlaying (facade (final (play brokenPlay (loaded playable)))) = false.
Proof.
  assert (state (facade (loaded playable)) <> state_idle) as Hs
    by discriminate.
  destruct (@play_effect _ _ _ (deps playable) (loaded playable) Hs)
    as [Hok _].
  destruct (Hok _ eq_refl) as (_ & _ & _ & He).
  destruct (@play_effect _ _ _ brokenPlay (loaded playable) Hs)
    as [_ Hthrow].
  destruct (Hthrow _ _ eq_refl) as (Ho & _ & Hi & _).
  split; [exact He|]. split; [exact Ho|exact Hi].
Defined.

Lemma stop_reports_witness :
  events (emitted (stop (deps playable) (newPlayer idlePipeline)))
    = [ev_pause; ev_error {| message := "No media loaded" |};
       ev_error {| message := "No media loaded" |}] /\
  events (emitted (stop (deps brokenSeek) (loaded brokenSeek)))
    = [ev_pause; ev_seeking 0; ev_error {| message := "Seek failed" |};
       ev_error {| message := "Seek failed" |}] /\
  events (emitted (stop (deps brokenPause) (loaded brokenPause)))
    = [ev_error {| message := "Audio output is gone" |}].
Proof.
  destruct (@stop_reports _ _ _ (deps playable) (newPlayer idlePipeline))
    as (_ & Hidle & _).
  destruct (Hidle _ eq_refl eq_refl) as (_ & _ & H1).
  destruct (@stop_reports _ _ _ (deps brokenSeek) (loaded brokenSeek))
    as (_ & _ & Hseek).
  assert (state (facade (loaded brokenSeek)) <> state_idle) as Hs
    by discriminate.
  destruct (Hseek _ _ _ eq_refl Hs eq_refl) as (_ & H2).
  destruct (@stop_reports _ _ _ (deps brokenPause) (loaded brokenPause))
    as (Hpause & _).
  destruct (Hpause _ _ eq_refl) as (_ & H3).
  split; [exact H1|]. split; [exact H2|exact H3].
Defined.

Lemma error_channel_witness :
  error (facade (final (seek (deps brokenSeek) 5 (loaded brokenSeek))))
    = Some {| message := "Seek failed" |} /\
  filter isErrorEvent
    (events (emitted (load (deps playable) "clip.mp4" noOptions
                           (newPlayer idlePipeline)))) = [].
Proof.
  destruct (@error_channel _ _ _ (deps brokenSeek) (CallSeek string 5)
              (loaded brokenSeek)) as [Hthrow _]; [discriminate|].
  destruct (Hthrow {| message := "Seek failed" |} eq_refl) as (He & _).
  destruct (@error_channel _ _ _ (deps playable)
              (CallLoad "clip.mp4" noOptions) (newPlayer idlePipeline))
    as [_ Hok]; [discriminate|].
  split; [exact He|exact (Hok eq_refl)].
Defined.

Lemma idle_check_once_witness :
  outcome (play (deps playable) (newPlayer idlePipeline))
    = Throw {| message := "No media loaded" |} /\
  outcome (play (deps playable)
             (final (play (deps playable) (newPlayer idlePipeline)))) = Ok tt /\
  isPlaying (facade (final (play (deps playable)
                              (final (play (deps playable)
                                        (newPlayer idlePipeline)))))) = true.
Proof.
  destruct (@idle_check_once _ _ _ (deps playable) (newPlayer idlePipeline) 5
              _ _ _ _ _ _ eq_refl eq_refl eq_refl eq_refl eq_refl eq_refl)
    as ((H1 & H2 & _ & H4 & _) & _).
  split; [exact H1|]. split; [exact H2|exact H4].
Defined.

End PlayerMore.

(* ===================================================================== *)
(** * Properties of useAVPlay *)
(* ===================================================================== *)

Module HookFacts.

Import Hook.

Section Handlers.

Variable H : Type.

Lemma setupHandlers_pass (options : UseAVPlayOptions H) :
  setupHandlers options true
    = Some (registerAll options registrationOrder ([], [])).
Proof. reflexivity. Qed.

Lemma registerAll_entries (options : UseAVPlayOptions H)
    (events : list EventName) (acc : Registry H) :
  registerAll options events acc
    = (fst acc ++ map (fun entry => On (fst entry) (snd entry))
                      (flat_map (entryOf options) events),
       snd acc ++ flat_map (entryOf options) events).
Proof.
  revert acc. induction events as [|e events IH]; intros [calls handlers]; simpl.
  - rewrite !app_nil_r. reflexivity.
  - unfold registerAll in *. simpl. rewrite IH. unfold registerHandler, entryOf.
    destruct (handlerOf options e); simpl; rewrite <- ?app_assoc; reflexivity.
Qed.

Lemma entries_events (options : UseAVPlayOptions H) (events : list EventName)
    (e : EventName) (h : H) :
  In (e, h) (flat_map (entryOf options) events) <->
  In e events /\ handlerOf options e = Some h.
Proof.
  rewrite in_flat_map. unfold entryOf. split.
  - intros (e' & Hin & Hentry).
    destruct (handlerOf options e') as [h'|] eqn:E; [|contradiction].
    destruct Hentry as [Heq | []]. injection Heq as <- <-. auto.
  - intros [Hin Hh]. exists e. rewrite Hh. split; [assumption|left; reflexivity].
Qed.

Lemma entries_NoDup (options : UseAVPlayOptions H) (events : list EventName) :
  NoDup events -> NoDup (map fst (flat_map (entryOf options) events)).
Proof.
  induction 1 as [|e events Hnotin Hnodup IH]; simpl; [constructor|].
  rewrite map_app. unfold entryOf at 1.
  destruct (handlerOf options e) as [h|]; simpl; [|exact IH].
  constructor; [|exact IH].
  rewrite in_map_iff. intros ([e' h'] & Heq & Hin). simpl in Heq. subst e'.
  apply entries_events in Hin. apply Hnotin, Hin.
Qed.

Lemma registrationOrder_NoDup : NoDup registrationOrder.
Proof.
  unfold registrationOrder.
  repeat (constructor; [simpl; intuition discriminate|]). constructor.
Qed.

Lemma registrationOrder_complete (e : EventName) : In e registrationOrder.
Proof.
  destruct e; simpl; tauto.
Qed.

(** X18: the effect attaches nothing without a player.  With a player it
    attaches every handler the options give, under its own event, once, in
    the fixed order of the events, and nothing for a handler left
    undefined; the cleanup it returns detaches exactly what was attached,
    entry for entry. *)
Theorem handlers_attached_and_detached (options : UseAVPlayOptions H) :
  setupHandlers options false = None /\
  exists calls handlers,
    setupHandlers options true = Some (calls, handlers) /\
    calls = map (fun entry => On (fst entry) (snd entry)) handlers /\
    cleanupHandlers handlers
      = map (fun entry => Off (fst entry) (snd entry)) handlers /\
    handlers = flat_map (entryOf options) registrationOrder /\
    NoDup (map fst handlers) /\
    (forall e h, In (e, h) handlers <-> handlerOf options e = Some h).
Proof.
  split; [reflexivity|].
  exists (map (fun entry => On (fst entry) (snd entry))
              (flat_map (entryOf options) registrationOrder)),
         (flat_map (entryOf options) registrationOrder).
  split; [rewrite setupHandlers_pass, registerAll_entries; reflexivity|].
  split; [reflexivity|]. split; [reflexivity|]. split; [reflexivity|].
  split.
  - apply entries_NoDup, registrationOrder_NoDup.
  - intros e h. rewrite entries_events. split.
    + intros [_ Hh]. exact Hh.
    + intros Hh. split; [apply registrationOrder_complete|exact Hh].
Qed.

End Handlers.

Section Store.

Variable S : Type.

Lemma setAdd_In (cb x : nat) (l : list nat) :
  In x (setAdd cb l) <-> x = cb \/ In x l.
Proof.
  unfold setAdd. destruct (existsb (Nat.eqb cb) l) eqn:E.
  - apply existsb_exists in E. destruct E as (y & Hy & Heq).
    apply Nat.eqb_eq in Heq. subst y. split; [auto|].
    intros [-> | Hin]; assumption.
  - rewrite in_app_iff. simpl. intuition.
Qed.

Lemma setAdd_NoDup (cb : nat) (l : list nat) : NoDup l -> NoDup (setAdd cb l).
Proof.
  intros Hl. unfold setAdd. destruct (existsb (Nat.eqb cb) l) eqn:E; [exact Hl|].
  apply NoDup_app; [exact Hl|repeat constructor; intros []|].
  intros x Hin [Heq | []]. subst x.
  assert (existsb (Nat.eqb cb) l = true) as E'.
  { apply existsb_exists. exists cb. split; [exact Hin|apply Nat.eqb_refl]. }
  congruence.
Qed.

Lemma setDelete_In (cb x : nat) (l : list nat) :
  In x (setDelete cb l) <-> In x l /\ x <> cb.
Proof.
  unfold setDelete. rewrite filter_In, negb_true_iff, Nat.eqb_neq.
  intuition.
Qed.

Lemma setDelete_NoDup (cb : nat) (l : list nat) : NoDup l -> NoDup (setDelete cb l).
Proof. apply NoDup_filter. Qed.

Lemma store_invariant (history : list StoreCall) :
  NoDup (subscribersRef (fold_left (@storeCall S) history (mounted S))) /\
  forall cb,
    In cb (subscribersRef (fold_left (@storeCall S) history (mounted S))) <->
    subscribed cb (rev history) = true.
Proof.
  induction history as [|c history [IHn IHi]] using rev_ind; simpl.
  - split; [constructor|]. intros cb. split; [intros []|discriminate].
  - rewrite fold_left_app, rev_app_distr. simpl.
    destruct c as [cb'|cb']; simpl; split.
    + apply setAdd_NoDup, IHn.
    + intros cb. rewrite setAdd_In, IHi.
      destruct (Nat.eqb_spec cb cb'); intuition (try congruence).
    + apply setDelete_NoDup, IHn.
    + intros cb. rewrite setDelete_In, IHi.
      destruct (Nat.eqb_spec cb cb'); intuition (try congruence).
Qed.

(** X19: whatever was subscribed and unsubscribed before, a state change of
    the player calls exactly the callbacks whose last call was a
    subscription, each of them once, and [getSnapshot] then returns the new
    state.  Subscribing a callback again does not count twice: one
    unsubscription removes it. *)
Theorem store_notifies_current_subscribers (history : list StoreCall)
    (newState : S) :
  let refs := fold_left (@storeCall S) history (mounted S) in
  NoDup (snd (onPlayerState newState refs)) /\
  (forall cb,
     In cb (snd (onPlayerState newState refs)) <->
     subscribed cb (rev history) = true) /\
  getSnapshot (fst (onPlayerState newState refs)) = Some newState /\
  (forall cb,
     ~ In cb (subscribersRef
                (unsubscribe cb (subscribe cb (subscribe cb refs))))).
Proof.
  intros refs. destruct (store_invariant history) as [Hn Hi].
  split; [exact Hn|]. split; [exact Hi|]. split; [reflexivity|].
  intros cb. simpl. rewrite setDelete_In. intros [_ Hneq]. apply Hneq.
  reflexivity.
Qed.

End Store.

End HookFacts.
